(* ===================================================================== *)
(* gamifykit / leaderboard: the skip-list ranking index                  *)
(*                                                                       *)
(* A shallow embedding of src/leaderboard/skiplist.go.  Go pointers to   *)
(* nodes are addresses into an explicit node store; nil is None; a run   *)
(* that panics (nil dereference, index out of range, a capacity make     *)
(* refuses) or that would not leave a loop is None in the option monad.  *)
(* The reader/writer lock is not part of the model: every operation is   *)
(* one atomic step.                                                      *)
(* ===================================================================== *)

From Stdlib Require Import QArith Ascii String.
From stdpp Require Import gmap strings list sorting.

Local Open Scope Z_scope.
Local Open Scope nat_scope.

(* --------------------------------------------------------------------- *)
(* leaderboard.go: Entry                                                 *)
(* --------------------------------------------------------------------- *)

(* core.UserID is a Go string, Score an int64.  Scores are only compared,
   never computed with, so no wrap-around arises. *)
Record Entry := mkEntry { User : string; Score : Z }.

(* Entry{} *)
Definition zeroEntry : Entry := mkEntry EmptyString 0%Z.

Global Instance Entry_eq_dec : EqDecision Entry.
Proof. solve_decision. Defined.

(* --------------------------------------------------------------------- *)
(* skiplist.go: constants, less                                          *)
(* --------------------------------------------------------------------- *)

Definition maxLevel : nat := 16.
Definition pFactor : Q := (1 # 4)%Q.

(* func less(a, b Entry) bool; Go compares strings bytewise. *)
Definition less (a b : Entry) : bool :=
  if (Score a =? Score b)%Z then String.ltb (User a) (User b)
  else (Score a >? Score b)%Z.

(* --------------------------------------------------------------------- *)
(* skiplist.go: node, SkipList, the random source                        *)
(* --------------------------------------------------------------------- *)

(* type node struct { e Entry; next [maxLevel]*node }.
   A *node is an address (an index of the node store); nil is None. *)
Record node := mkNode { e : Entry; next : list (option nat) }.

(* [maxLevel]*node{} *)
Definition nilPtrs : list (option nat) := replicate maxLevel None.

(* The generator behind s.rng: the stream of the values Float64() will
   return, and how many have been drawn. *)
Record Rand := mkRand { draws : nat → Q; pos : nat }.

Definition Float64 (r : Rand) : Q * Rand :=
  (draws r (pos r), mkRand (draws r) (S (pos r))).

Definition Qltb (x y : Q) : bool := negb (Qle_bool y x).

(* mem is the store all *node values point into; the mutex is omitted. *)
Record SkipList := mkSkipList {
  mem : list node;
  head : nat;
  lvl : nat;
  byUser : gmap string nat;
  rng : Rand
}.

(* NewSkipList: the seed only determines the stream of draws. *)
Definition NewSkipList (seed : nat → Q) : SkipList :=
  mkSkipList [mkNode zeroEntry nilPtrs] 0 1 ∅ (mkRand seed 0).

(* a[i] = p on an array of pointers; out of range panics *)
Definition store_ptr (a : list (option nat)) (i : nat) (p : option nat)
  : option (list (option nat)) :=
  if decide (i < length a) then Some (<[i := p]> a) else None.

(* p.next[i] *)
Definition get_next (m : list node) (p i : nat) : option (option nat) :=
  nd ← m !! p; next nd !! i.

(* p.next[i] = x *)
Definition set_next (m : list node) (p i : nat) (x : option nat)
  : option (list node) :=
  nd ← m !! p; nx ← store_ptr (next nd) i x; Some (<[p := mkNode (e nd) nx]> m).

(* a counted loop: the body runs once per index, in order *)
Fixpoint for_each {A} (body : A → nat → option A) (ixs : list nat) (a : A)
  : option A :=
  match ixs with
  | [] => Some a
  | i :: rest => a' ← body a i; for_each body rest a'
  end.

(* --------------------------------------------------------------------- *)
(* randomLevel                                                           *)
(* --------------------------------------------------------------------- *)

(* for lvl < maxLevel && s.rng.Float64() < pFactor { lvl++ }
   No value is drawn once lvl has reached maxLevel. *)
Fixpoint randomLevel_loop (fuel l : nat) (r : Rand) : option (nat * Rand) :=
  if l <? maxLevel then
    let '(x, r') := Float64 r in
    if Qltb x pFactor then
      match fuel with
      | 0 => None
      | S f => randomLevel_loop f (S l) r'
      end
    else Some (l, r')
  else Some (l, r).

Definition randomLevel (r : Rand) : option (nat * Rand) :=
  randomLevel_loop maxLevel 1 r.

(* --------------------------------------------------------------------- *)
(* the search shared by Update and removeLocked                          *)
(* --------------------------------------------------------------------- *)

(* for cur.next[i] != nil && less(cur.next[i].e, e) { cur = cur.next[i] }
   Each test of the loop condition takes one unit of fuel; running out of
   fuel stands for a walk that does not end. *)
Fixpoint advance (fuel : nat) (m : list node) (i : nat) (en : Entry) (cur : nat)
  : option nat :=
  match fuel with
  | 0 => None
  | S f =>
    nx ← get_next m cur i;
    match nx with
    | None => Some cur
    | Some b =>
      nb ← m !! b;
      if less (e nb) en then advance f m i en b else Some cur
    end
  end.

(* for i := s.lvl - 1; i >= 0; i-- { ...; update[i] = cur }, k = i + 1.
   The inner walk gets as much fuel as nodes were ever allocated. *)
Fixpoint search (m : list node) (en : Entry) (k cur : nat)
  (update : list (option nat)) : option (list (option nat)) :=
  match k with
  | 0 => Some update
  | S i =>
    cur' ← advance (length m) m i en cur;
    update' ← store_ptr update i (Some cur');
    search m en i cur' update'
  end.

(* --------------------------------------------------------------------- *)
(* removeLocked, Remove                                                  *)
(* --------------------------------------------------------------------- *)

(* if update[i].next[i] == target { update[i].next[i] = target.next[i] } *)
Definition unlink_step (update : list (option nat)) (target : nat)
  (m : list node) (i : nat) : option (list node) :=
  u ← update !! i; p ← u;
  x ← get_next m p i;
  if decide (x = Some target) then
    tx ← get_next m target i; set_next m p i tx
  else Some m.

(* for s.lvl > 1 && s.head.next[s.lvl-1] == nil { s.lvl-- } *)
Fixpoint shrink (m : list node) (hd l : nat) : option nat :=
  match l with
  | S (S i as l') =>
    x ← get_next m hd l';
    match x with
    | None => shrink m hd l'
    | Some _ => Some l
    end
  | _ => Some l
  end.

Definition removeLocked (s : SkipList) (user : string) (en : Entry)
  : option SkipList :=
  update ← search (mem s) en (lvl s) (head s) nilPtrs;
  u0 ← update !! 0; p0 ← u0;
  target ← get_next (mem s) p0 0;
  match target with
  | None => Some s
  | Some t =>
    tn ← mem s !! t;
    if decide (User (e tn) = user) then
      m' ← for_each (unlink_step update t) (seq 0 (lvl s)) (mem s);
      l' ← shrink m' (head s) (lvl s);
      Some (mkSkipList m' (head s) l' (delete user (byUser s)) (rng s))
    else Some s
  end.

Definition Remove (s : SkipList) (user : string) : option SkipList :=
  match byUser s !! user with
  | Some n => nd ← mem s !! n; removeLocked s user (e nd)
  | None => Some s
  end.

(* --------------------------------------------------------------------- *)
(* Update                                                                *)
(* --------------------------------------------------------------------- *)

(* n.next[i] = update[i].next[i]; update[i].next[i] = n *)
Definition splice_step (update : list (option nat)) (n : nat)
  (m : list node) (i : nat) : option (list node) :=
  u ← update !! i; p ← u;
  x ← get_next m p i;
  m1 ← set_next m n i x;
  set_next m1 p i (Some n).

Definition Update (s : SkipList) (user : string) (score : Z)
  : option SkipList :=
  s1 ← match byUser s !! user with
       | Some old => nd ← mem s !! old; removeLocked s user (e nd)
       | None => Some s
       end;
  let en := mkEntry user score in
  update ← search (mem s1) en (lvl s1) (head s1) nilPtrs;
  '(l, r') ← randomLevel (rng s1);
  update' ← (if lvl s1 <? l then
               for_each (λ upd i, store_ptr upd i (Some (head s1)))
                        (seq (lvl s1) (l - lvl s1)) update
             else Some update);
  let lvl' := if lvl s1 <? l then l else lvl s1 in
  (* n := &node{e: e} *)
  let n := length (mem s1) in
  let m0 := mem s1 ++ [mkNode en nilPtrs] in
  m' ← for_each (splice_step update' n) (seq 0 l) m0;
  Some (mkSkipList m' (head s1) lvl' (<[user := n]> (byUser s1)) r').

(* --------------------------------------------------------------------- *)
(* TopN, Get                                                             *)
(* --------------------------------------------------------------------- *)

(* out := make([]Entry, 0, n).  The Go runtime (makeslice) panics with
   "cap out of range" when the capacity asked for takes more than maxAlloc
   bytes.  On 64-bit targets an Entry takes 24 bytes (a string header and
   an int64) and maxAlloc is 2^48.  Memory running out below that limit
   depends on the host and is not modelled. *)
Definition entryBytes : Z := 24.
Definition maxAlloc : Z := 281474976710656.
Definition make_ok (cap : Z) : bool := (entryBytes * cap <=? maxAlloc)%Z.

(* the largest capacity make accepts: maxAlloc / entryBytes *)
Definition maxCap : Z := 11728124029610.

(* for cur != nil && len(out) < n { out = append(out, cur.e); cur = cur.next[0] }
   out holds Entry values copied from the nodes. *)
Fixpoint collect (fuel : nat) (m : list node) (cur : option nat) (n : Z)
  (out : list Entry) : option (list Entry) :=
  match fuel with
  | 0 => None
  | S f =>
    match cur with
    | None => Some out
    | Some a =>
      if (Z.of_nat (length out) <? n)%Z then
        nd ← m !! a; nx ← next nd !! 0;
        collect f m nx n (out ++ [e nd])
      else Some out
    end
  end.

Definition TopN (s : SkipList) (n : Z) : option (list Entry) :=
  if (n <=? 0)%Z then Some []
  else if make_ok n then
    cur ← get_next (mem s) (head s) 0;
    collect (length (mem s)) (mem s) cur n []
  else None.

Definition Get (s : SkipList) (user : string) : option (Entry * bool) :=
  match byUser s !! user with
  | Some n => nd ← mem s !! n; Some (e nd, true)
  | None => Some (zeroEntry, false)
  end.

(* --------------------------------------------------------------------- *)
(* call sequences                                                        *)
(* --------------------------------------------------------------------- *)

Inductive call :=
  | CUpdate (user : string) (score : Z)
  | CRemove (user : string).

Definition do_call (s : SkipList) (c : call) : option SkipList :=
  match c with
  | CUpdate u sc => Update s u sc
  | CRemove u => Remove s u
  end.

Fixpoint run (cs : list call) (s : SkipList) : option SkipList :=
  match cs with
  | [] => Some s
  | c :: rest => s' ← do_call s c; run rest s'
  end.

(* The states a board can be in: reached from NewSkipList by calls. *)
Definition reachable (s : SkipList) : Prop :=
  ∃ seed cs, run cs (NewSkipList seed) = Some s.

(* ===================================================================== *)
(* The shape of the store: towers                                        *)
(* ===================================================================== *)

(* A tower is a node seen from outside: where it lives, the entry it
   carries, and the levels [t_lo, t_hi) at which it is linked.  Between
   calls every tower has t_lo = 0; a node being spliced in or out passes
   through the other ranges. *)
Record tower := mkTower { t_addr : nat; t_e : Entry; t_lo : nat; t_hi : nat }.

Definition linked (i : nat) (t : tower) : bool :=
  (t_lo t <=? i) && (i <? t_hi t).

(* the first tower of l linked at level i *)
Fixpoint nxt (i : nat) (l : list tower) : option nat :=
  match l with
  | [] => None
  | t :: r => if linked i t then Some (t_addr t) else nxt i r
  end.

(* the last tower of l linked at level i, or c when there is none *)
Fixpoint last_linked (i c : nat) (l : list tower) : nat :=
  match l with
  | [] => c
  | t :: r => if linked i t then last_linked i (t_addr t) r else last_linked i c r
  end.

Definition node_at (m : list node) (t : tower) : Prop :=
  ∃ nd, m !! t_addr t = Some nd ∧ e nd = t_e t ∧ length (next nd) = maxLevel.

(* level i of the store is the chain of the towers linked at i *)
Fixpoint lev_ok (m : list node) (i : nat) (l : list tower) : Prop :=
  match l with
  | [] => True
  | t :: r =>
    (linked i t = true → get_next m (t_addr t) i = Some (nxt i r)) ∧ lev_ok m i r
  end.

Definition headT : tower := mkTower 0 zeroEntry 0 maxLevel.

Record linkage (m : list node) (l : list tower) : Prop := mkLinkage {
  lk_nodes : Forall (node_at m) l;
  lk_lev : ∀ i, lev_ok m i l;
  lk_nodup : NoDup (t_addr <$> l)
}.

Definition unlinked (i : nat) (t : tower) : Prop := linked i t = false.

(* two lists of towers that look the same at level i *)
Definition same_at (i : nat) (l l' : list tower) : Prop :=
  Forall2 (λ t t', t_addr t = t_addr t' ∧ linked i t = linked i t') l l'.

(* the entries ranked before, and not before, a given one *)
Definition before (en : Entry) (t : tower) : Prop := less (t_e t) en = true.
Definition not_before (en : Entry) (t : tower) : Prop := less (t_e t) en = false.

(* a tower at rest: linked from level 0 up to its height, at most lv *)
Definition settled (lv : nat) (t : tower) : Prop :=
  t_lo t = 0 ∧ 1 ≤ t_hi t ≤ lv.

Definition tower_lt (t t' : tower) : Prop := less (t_e t) (t_e t') = true.

(* s represents the ranked towers ns: the store is linked as ns says, ns
   is in ranking order, byUser indexes exactly the towers of ns, and lvl
   is the height of the tallest tower (1 on an empty board). *)
Record Rep (s : SkipList) (ns : list tower) : Prop := mkRep {
  rep_head : head s = 0;
  rep_link : linkage (mem s) (headT :: ns);
  rep_sorted : StronglySorted tower_lt ns;
  rep_index : ∀ u a,
    byUser s !! u = Some a ↔ ∃ t, t ∈ ns ∧ t_addr t = a ∧ User (t_e t) = u;
  rep_lvl : 1 ≤ lvl s ≤ maxLevel;
  rep_settled : Forall (settled (lvl s)) ns;
  rep_top : lvl s = 1 ∨ ∃ t, t ∈ ns ∧ linked (lvl s - 1) t = true
}.

Definition entries (ns : list tower) : list Entry := t_e <$> ns.

(* lines 71-92 of Update: what runs once the old node is gone *)
Definition Update_insert (s1 : SkipList) (user : string) (score : Z)
  : option SkipList :=
  let en := mkEntry user score in
  update ← search (mem s1) en (lvl s1) (head s1) nilPtrs;
  '(l, r') ← randomLevel (rng s1);
  update' ← (if lvl s1 <? l then
               for_each (λ upd i, store_ptr upd i (Some (head s1)))
                        (seq (lvl s1) (l - lvl s1)) update
             else Some update);
  let lvl' := if lvl s1 <? l then l else lvl s1 in
  let n := length (mem s1) in
  let m0 := mem s1 ++ [mkNode en nilPtrs] in
  m' ← for_each (splice_step update' n) (seq 0 l) m0;
  Some (mkSkipList m' (head s1) lvl' (<[user := n]> (byUser s1)) r').

(* --------------------------------------------------------------------- *)
(* vocabulary of the statements                                          *)
(* --------------------------------------------------------------------- *)

(* The level as the text describes it: count the successful flips at the
   front of the stream, at most bound of them. *)
Fixpoint successes (d : nat → Q) (p bound : nat) : nat :=
  match bound with
  | 0 => 0
  | S b => if Qltb (d p) pFactor then S (successes d (S p) b) else 0
  end.

Definition level_spec (r : Rand) : nat :=
  1 + successes (draws r) (pos r) (maxLevel - 1).

(* how many values a call takes from the stream: one per flip made *)
Definition flips (r : Rand) : nat := Nat.min (level_spec r) (maxLevel - 1).

(* the first entry of l that belongs to user u *)
Fixpoint entry_of (u : string) (l : list Entry) : option Entry :=
  match l with
  | [] => None
  | x :: r => if decide (User x = u) then Some x else entry_of u r
  end.

(* which entries are on the board after a call, given those before *)
Definition after_call (c : call) (l : list Entry) (x : Entry) : Prop :=
  match c with
  | CUpdate u sc => x = mkEntry u sc ∨ (x ∈ l ∧ User x ≠ u)
  | CRemove u => x ∈ l ∧ User x ≠ u
  end.

(* The order of section 4.2: higher score first, equal scores by ascending
   user identifier. *)
Definition ranked_before (a b : Entry) : Prop :=
  (Score a > Score b)%Z ∨
  (Score a = Score b ∧ String.compare (User a) (User b) = Lt).

Definition found (o : option Entry) : Entry * bool :=
  match o with
  | Some x => (x, true)
  | None => (zeroEntry, false)
  end.

(* two boards no caller can tell apart *)
Definition same_view (s1 s2 : SkipList) : Prop :=
  (∀ n, TopN s1 n = TopN s2 n) ∧ (∀ u, Get s1 u = Get s2 u).

Definition with_rng (s : SkipList) (r : Rand) : SkipList :=
  mkSkipList (mem s) (head s) (lvl s) (byUser s) r.

(* a stream of draws for the examples: every other flip succeeds *)
Definition coin (k : nat) : Q := if Nat.even k then (1 # 8)%Q else (1 # 2)%Q.

(* a small board for the examples *)
Definition demo : list call :=
  [CUpdate "ann" 10; CUpdate "bob" 20; CUpdate "cid" 15; CUpdate "ann" 25].

(* --------------------------------------------------------------------- *)
(* vocabulary of the further properties                                  *)
(* --------------------------------------------------------------------- *)

(* the user a call is about *)
Definition call_user (c : call) : string :=
  match c with
  | CUpdate u _ => u
  | CRemove u => u
  end.



(* the nodes met by following the forward links of level i from cur, the
   way TopN follows those of level 0 *)
Fixpoint follow (fuel : nat) (m : list node) (i : nat) (cur : option nat)
  : option (list nat) :=
  match fuel with
  | 0 => None
  | S f =>
    match cur with
    | None => Some []
    | Some a => nx ← get_next m a i; rest ← follow f m i nx; Some (a :: rest)
    end
  end.

Definition level_chain (s : SkipList) (i : nat) : option (list nat) :=
  cur ← get_next (mem s) (head s) i;
  follow (length (mem s)) (mem s) i cur.

(* what the calls made so far leave for user u: the entry of the last
   Update(u, _) unless a Remove(u) came after it; acc is what held before *)
Fixpoint last_write (u : string) (cs : list call) (acc : option Entry)
  : option Entry :=
  match cs with
  | [] => acc
  | CUpdate v sc :: rest =>
      last_write u rest (if decide (v = u) then Some (mkEntry u sc) else acc)
  | CRemove v :: rest =>
      last_write u rest (if decide (v = u) then None else acc)
  end.

(* the addresses of the towers of l linked at level i *)
Fixpoint on_level (i : nat) (l : list tower) : list nat :=
  match l with
  | [] => []
  | t :: r => if linked i t then t_addr t :: on_level i r else on_level i r
  end.

(* ===================================================================== *)
(* Proofs                                                                *)
(* ===================================================================== *)

(* membership in a list written with ++ and :: *)
Ltac elem := rewrite ?elem_of_app, ?elem_of_cons; tauto.

(* ---------------- the comparator is a strict total order ------------- *)

Lemma ascii_compare_refl (a : ascii) : Ascii.compare a a = Eq.
Proof. unfold Ascii.compare. apply N.compare_refl. Qed.

Lemma ascii_compare_lt_trans (a b c : ascii) :
  Ascii.compare a b = Lt → Ascii.compare b c = Lt → Ascii.compare a c = Lt.
Proof.
  unfold Ascii.compare. rewrite !N.compare_lt_iff. apply N.lt_trans.
Qed.

Lemma string_compare_refl (s : string) : String.compare s s = Eq.
Proof. induction s as [|a s IH]; simpl; [done|]. by rewrite ascii_compare_refl. Qed.

Lemma string_compare_lt_trans (s1 s2 s3 : string) :
  String.compare s1 s2 = Lt → String.compare s2 s3 = Lt →
  String.compare s1 s3 = Lt.
Proof.
  revert s2 s3. induction s1 as [|a s1 IH]; intros [|b s2] [|c s3]; simpl; try done.
  destruct (Ascii.compare a b) eqn:Hab; try done.
  - apply Ascii.compare_eq_iff in Hab as ->.
    destruct (Ascii.compare b c); try done. apply IH.
  - intros _. destruct (Ascii.compare b c) eqn:Hbc; try done.
    + apply Ascii.compare_eq_iff in Hbc as <-. by rewrite Hab.
    + by rewrite (ascii_compare_lt_trans _ _ _ Hab Hbc).
Qed.

Lemma string_ltb_irrefl (s : string) : String.ltb s s = false.
Proof. unfold String.ltb. by rewrite string_compare_refl. Qed.

Lemma string_ltb_trans (s1 s2 s3 : string) :
  String.ltb s1 s2 = true → String.ltb s2 s3 = true → String.ltb s1 s3 = true.
Proof.
  unfold String.ltb.
  destruct (String.compare s1 s2) eqn:H12; try done.
  destruct (String.compare s2 s3) eqn:H23; try done.
  by rewrite (string_compare_lt_trans _ _ _ H12 H23).
Qed.

Lemma string_ltb_total (s1 s2 : string) :
  String.ltb s1 s2 = true ∨ s1 = s2 ∨ String.ltb s2 s1 = true.
Proof.
  unfold String.ltb. rewrite (String.compare_antisym s2 s1).
  destruct (String.compare s1 s2) eqn:H; simpl; auto.
  right; left. by apply String.compare_eq_iff.
Qed.

Lemma less_irrefl (a : Entry) : less a a = false.
Proof. unfold less. rewrite Z.eqb_refl. apply string_ltb_irrefl. Qed.

Lemma less_trans (a b c : Entry) :
  less a b = true → less b c = true → less a c = true.
Proof.
  unfold less.
  destruct (Z.eqb_spec (Score a) (Score b)) as [Hab|Hab];
    destruct (Z.eqb_spec (Score b) (Score c)) as [Hbc|Hbc];
    destruct (Z.eqb_spec (Score a) (Score c)) as [Hac|Hac];
    rewrite ?Z.gtb_gt; try lia; eauto using string_ltb_trans.
Qed.

Lemma less_asym (a b : Entry) : less a b = true → less b a = false.
Proof.
  intros H. destruct (less b a) eqn:H'; [|done].
  by rewrite <-(less_irrefl a), (less_trans _ _ _ H H').
Qed.

Lemma less_total (a b : Entry) : less a b = true ∨ a = b ∨ less b a = true.
Proof.
  unfold less. destruct a as [ua sa], b as [ub sb]; simpl.
  destruct (Z.eqb_spec sa sb) as [->|Hne].
  - rewrite Z.eqb_refl. destruct (string_ltb_total ua ub) as [?|[->|?]]; auto.
  - destruct (Z.eqb_spec sb sa) as [?|_]; [congruence|].
    rewrite !Z.gtb_gt. lia.
Qed.

Section towers.
Implicit Types (m : list node) (l : list tower) (t : tower) (i : nat).

Lemma nxt_app i l1 l2 :
  nxt i (l1 ++ l2) = match nxt i l1 with Some a => Some a | None => nxt i l2 end.
Proof. induction l1 as [|t l1 IH]; simpl; [done|]. by destruct (linked i t). Qed.

Lemma nxt_unlinked i l : Forall (unlinked i) l → nxt i l = None.
Proof. induction 1 as [|t l Ht _ IH]; simpl; [done|]. by rewrite Ht. Qed.

Lemma nxt_unlinked_app i l1 l2 :
  Forall (unlinked i) l1 → nxt i (l1 ++ l2) = nxt i l2.
Proof. intros H. by rewrite nxt_app, nxt_unlinked. Qed.

Lemma nxt_None i l : nxt i l = None → Forall (unlinked i) l.
Proof.
  induction l as [|t l IH]; simpl; [constructor|].
  destruct (linked i t) eqn:Ht; [done|]. intros; constructor; auto.
Qed.

Lemma nxt_Some i l a :
  nxt i l = Some a → ∃ t, t ∈ l ∧ t_addr t = a ∧ linked i t = true.
Proof.
  induction l as [|t l IH]; simpl; [done|].
  destruct (linked i t) eqn:Ht.
  - intros [= <-]. exists t. split; [left|done].
  - intros (t' & ? & ?)%IH. exists t'. split; [by right|done].
Qed.

Lemma nxt_same i l l' : same_at i l l' → nxt i l = nxt i l'.
Proof.
  induction 1 as [|t t' l l' [Ha Hl] _ IH]; simpl; [done|].
  by rewrite Hl, Ha, IH.
Qed.

Lemma same_at_refl i l : same_at i l l.
Proof. by apply Forall2_same_length_lookup_2; [|intros ??? -> [= ->]]. Qed.

Lemma same_at_app i l1 l1' l2 l2' :
  same_at i l1 l1' → same_at i l2 l2' → same_at i (l1 ++ l2) (l1' ++ l2').
Proof. apply Forall2_app. Qed.

Lemma lev_ok_same m i l l' : same_at i l l' → lev_ok m i l → lev_ok m i l'.
Proof.
  induction 1 as [|t t' l l' [Ha Hl] Hs IH]; simpl; [done|].
  intros [H1 H2]. split; [|auto].
  rewrite <-Ha, <-Hl, <-(nxt_same _ _ _ Hs). done.
Qed.

(* lev_ok only reads level i of the nodes of l *)
Lemma lev_ok_frame m m' i l :
  (∀ t, t ∈ l → get_next m' (t_addr t) i = get_next m (t_addr t) i) →
  lev_ok m i l → lev_ok m' i l.
Proof.
  induction l as [|t l IH]; simpl; [done|].
  intros Hf [H1 H2]. split.
  - rewrite Hf; [done|left].
  - apply IH; [|done]. intros t' ?. apply Hf. by right.
Qed.

Lemma lev_ok_app_r m i l1 l2 : lev_ok m i (l1 ++ l2) → lev_ok m i l2.
Proof. induction l1; simpl; [done|]. intros [_ ?]; auto. Qed.

Lemma lev_ok_unlinked_app m i l1 l2 :
  Forall (unlinked i) l1 → lev_ok m i l2 → lev_ok m i (l1 ++ l2).
Proof.
  induction 1 as [|t l1 Ht _ IH]; simpl; [done|].
  intros H. split; [|auto]. by rewrite Ht.
Qed.

(* re-pointing the last tower linked before a changed suffix *)
Lemma lev_ok_relink m m' i l1 u l2 l2' :
  linked i u = true →
  lev_ok m i (l1 ++ u :: l2) →
  (∀ t, t ∈ l1 → get_next m' (t_addr t) i = get_next m (t_addr t) i) →
  get_next m' (t_addr u) i = Some (nxt i l2') →
  lev_ok m' i l2' →
  lev_ok m' i (l1 ++ u :: l2').
Proof.
  intros Hu Hok Hf Hu' Hok'. induction l1 as [|t l1 IH]; simpl in *.
  - done.
  - destruct Hok as [H1 H2]. split.
    + intros Ht. rewrite Hf by left. rewrite (H1 Ht).
      rewrite !nxt_app. simpl. by rewrite Hu.
    + apply IH; [done|]. intros t' ?. apply Hf. by right.
Qed.

(* a tower linked nowhere at level i can be dropped from the list *)
Lemma lev_ok_drop m i l1 t l2 :
  unlinked i t → lev_ok m i (l1 ++ t :: l2) → lev_ok m i (l1 ++ l2).
Proof.
  intros Ht. induction l1 as [|t' l1 IH]; simpl.
  - by intros [_ ?].
  - intros [H1 H2]. split; [|auto].
    intros Hl. rewrite (H1 Hl), !nxt_app. simpl. by rewrite Ht.
Qed.

Lemma last_linked_app i c l1 l2 :
  last_linked i c (l1 ++ l2) = last_linked i (last_linked i c l1) l2.
Proof. revert c. induction l1 as [|t l1 IH]; intros c; simpl; [done|]. by destruct (linked i t). Qed.

Lemma last_linked_unlinked i c l : Forall (unlinked i) l → last_linked i c l = c.
Proof. intros H. revert c. induction H as [|t l Ht _ IH]; intros c; simpl; [done|]. by rewrite Ht. Qed.

(* where the last tower of c :: l linked at k sits; when whatever is
   linked at k is linked at i too, that tower is linked at i *)
Lemma last_linked_split k i c l :
  linked i c = true →
  Forall (λ t, linked k t = true → linked i t = true) l →
  ∃ l1 u l2, c :: l = l1 ++ u :: l2 ∧ t_addr u = last_linked k (t_addr c) l ∧
    linked i u = true ∧ Forall (unlinked k) l2.
Proof.
  intros Hc Hl. revert c Hc.
  induction Hl as [|t l Ht _ IH]; intros c Hc; simpl.
  - exists [], c, []. by repeat split.
  - destruct (linked k t) eqn:Hkt.
    + destruct (IH t (Ht eq_refl)) as (l1 & u & l2 & -> & ? & ? & ?).
      exists (c :: l1), u, l2. by repeat split.
    + destruct (IH c Hc) as (l1 & u & l2 & Heq & ? & ? & ?).
      destruct l1 as [|c' l1]; simplify_eq/=.
      * exists [], u, (t :: l2). repeat split; [done..|]. by constructor.
      * exists (c' :: t :: l1), u, l2. by repeat split.
Qed.

Lemma last_linked_from i c l l1 u l2 :
  c :: l = l1 ++ u :: l2 → linked i u = true →
  last_linked i (t_addr c) l = last_linked i (t_addr u) l2.
Proof.
  intros Heq Hu. destruct l1 as [|c' l1]; simplify_eq/=; [done|].
  rewrite last_linked_app. simpl. by rewrite Hu.
Qed.

Lemma split_suffix {A} (x y : A) (xs ys zs : list A) :
  x :: xs = ys ++ y :: zs → ∃ ws, xs = ws ++ zs.
Proof.
  destruct ys as [|x' ys]; intros; simplify_eq/=.
  - by exists [].
  - exists (ys ++ [y]). by rewrite <-app_assoc.
Qed.

Lemma linkage_length m l : linkage m l → length l ≤ length m.
Proof.
  intros [Hn _ Hd].
  assert (t_addr <$> l ⊆+ seq 0 (length m)) as Hsub; last first.
  { apply submseteq_length in Hsub. by rewrite length_fmap, length_seq in Hsub. }
  apply NoDup_submseteq; [done|].
  intros a (t & -> & Ht)%list_elem_of_fmap_1.
  rewrite Forall_forall in Hn. destruct (Hn t Ht) as (nd & Hnd & _).
  apply elem_of_seq. apply lookup_lt_Some in Hnd. lia.
Qed.
End towers.

(* --------------------------------------------------------------------- *)
(* reading and writing forward links                                     *)
(* --------------------------------------------------------------------- *)

Section store.
Implicit Types (m : list node) (t : tower) (x : option nat).

Lemma set_next_inv m m' p i x :
  set_next m p i x = Some m' →
  ∃ nd, m !! p = Some nd ∧ i < length (next nd) ∧
        m' = <[p := mkNode (e nd) (<[i := x]> (next nd))]> m.
Proof.
  unfold set_next, store_ptr. destruct (m !! p) as [nd|] eqn:Hp; simpl; [|done].
  case_decide; simpl; [|done]. intros [= <-]. eauto.
Qed.

Lemma set_next_Some m p i x nd :
  m !! p = Some nd → i < length (next nd) →
  set_next m p i x = Some (<[p := mkNode (e nd) (<[i := x]> (next nd))]> m).
Proof.
  intros Hp Hi. unfold set_next, store_ptr. rewrite Hp. simpl.
  by rewrite decide_True.
Qed.

Lemma get_set_next m m' p i x q j :
  set_next m p i x = Some m' →
  get_next m' q j = if decide (q = p ∧ j = i) then Some x else get_next m q j.
Proof.
  intros (nd & Hp & Hi & ->)%set_next_inv. unfold get_next.
  pose proof (lookup_lt_Some _ _ _ Hp) as Hlt.
  destruct (decide (q = p)) as [->|Hq].
  - rewrite list_lookup_insert_eq by done. rewrite Hp. simpl.
    destruct (decide (j = i)) as [->|Hj].
    + rewrite decide_True by done. by apply list_lookup_insert_eq.
    + rewrite decide_False by (intros []; done). by apply list_lookup_insert_ne.
  - rewrite decide_False by (intros []; done).
    by rewrite list_lookup_insert_ne.
Qed.

Lemma get_set_next_other_level m m' p i x q j :
  set_next m p i x = Some m' → j ≠ i → get_next m' q j = get_next m q j.
Proof.
  intros H ?. rewrite (get_set_next _ _ _ _ _ _ _ H).
  by rewrite decide_False by (intros []; done).
Qed.

Lemma get_set_next_other_node m m' p i x q j :
  set_next m p i x = Some m' → q ≠ p → get_next m' q j = get_next m q j.
Proof.
  intros H ?. rewrite (get_set_next _ _ _ _ _ _ _ H).
  by rewrite decide_False by (intros []; done).
Qed.

Lemma get_set_next_eq m m' p i x :
  set_next m p i x = Some m' → get_next m' p i = Some x.
Proof.
  intros H. rewrite (get_set_next _ _ _ _ _ _ _ H). by rewrite decide_True.
Qed.

Lemma set_next_length m m' p i x :
  set_next m p i x = Some m' → length m' = length m.
Proof. intros (nd & _ & _ & ->)%set_next_inv. apply length_insert. Qed.

Lemma set_next_node_at m m' p i x t :
  set_next m p i x = Some m' → node_at m t → node_at m' t.
Proof.
  intros (nd & Hp & Hi & ->)%set_next_inv (nd' & Ht & He & Hl).
  pose proof (lookup_lt_Some _ _ _ Hp) as Hlt.
  destruct (decide (t_addr t = p)) as [Heq|Hne].
  - unfold node_at. rewrite Heq in Ht |- *. rewrite Hp in Ht. injection Ht as <-.
    eexists. split; [by apply list_lookup_insert_eq|].
    simpl. by rewrite length_insert.
  - exists nd'. by rewrite list_lookup_insert_ne.
Qed.

Lemma node_at_set_next m t i x :
  node_at m t → i < maxLevel → is_Some (set_next m (t_addr t) i x).
Proof.
  intros (nd & Ht & _ & Hl) Hi. erewrite set_next_Some; [done..|]. by rewrite Hl.
Qed.

Lemma node_at_get_next m t i :
  node_at m t → i < maxLevel → is_Some (get_next m (t_addr t) i).
Proof.
  intros (nd & Ht & _ & Hl) Hi. unfold get_next. rewrite Ht. simpl.
  apply lookup_lt_is_Some. by rewrite Hl.
Qed.

Lemma node_at_same m t t' :
  t_addr t = t_addr t' → t_e t = t_e t' → node_at m t → node_at m t'.
Proof. intros Ha He (nd & ? & ? & ?). exists nd. by rewrite <-Ha, <-He. Qed.
End store.

(* --------------------------------------------------------------------- *)
(* one iteration of the splice loop and of the unlink loop               *)
(* --------------------------------------------------------------------- *)

Section steps.
Implicit Types (m : list node) (l : list tower) (t u n : tower).

Lemma addr_mid l1 u l2 t :
  NoDup (t_addr <$> (l1 ++ u :: l2)) → t ∈ l1 ++ l2 → t_addr t ≠ t_addr u.
Proof.
  rewrite fmap_app, fmap_cons, NoDup_app, NoDup_cons.
  intros (_ & H1 & H2 & _) [Ht|Ht]%elem_of_app Heq.
  - apply (H1 (t_addr t)); [by apply list_elem_of_fmap_2|]. rewrite Heq. left.
  - apply H2. rewrite <-Heq. by apply list_elem_of_fmap_2.
Qed.

Lemma addr_facts l1 u l2 n post :
  NoDup (t_addr <$> (l1 ++ u :: l2 ++ n :: post)) →
  (∀ t, t ∈ l1 → t_addr t ≠ t_addr u ∧ t_addr t ≠ t_addr n) ∧
  t_addr u ≠ t_addr n ∧
  (∀ t, t ∈ post → t_addr t ≠ t_addr u ∧ t_addr t ≠ t_addr n).
Proof.
  intros H.
  assert (∀ t, t ∈ l1 ++ l2 ++ n :: post → t_addr t ≠ t_addr u) as Hu
    by (intros t; by apply addr_mid).
  assert (∀ t, t ∈ (l1 ++ u :: l2) ++ post → t_addr t ≠ t_addr n) as Hn.
  { intros t. apply addr_mid. by rewrite <-app_assoc. }
  split; [|split].
  - intros t Ht. split; [apply Hu|apply Hn]; set_solver.
  - intros Heq. apply (Hn u); [set_solver|done].
  - intros t Ht. split; [apply Hu|apply Hn]; set_solver.
Qed.

Lemma same_at_replace j l1 u l2 n n' post :
  t_addr n' = t_addr n → linked j n' = linked j n →
  same_at j (l1 ++ u :: l2 ++ n :: post) (l1 ++ u :: l2 ++ n' :: post).
Proof.
  intros Ha Hl. apply same_at_app; [apply same_at_refl|].
  constructor; [done|]. apply same_at_app; [apply same_at_refl|].
  constructor; [done|apply same_at_refl].
Qed.

Lemma nodes_replace m l1 u l2 n n' post :
  t_addr n' = t_addr n → t_e n' = t_e n →
  Forall (node_at m) (l1 ++ u :: l2 ++ n :: post) →
  Forall (node_at m) (l1 ++ u :: l2 ++ n' :: post).
Proof.
  intros Ha He. rewrite !Forall_app, !Forall_cons, !Forall_app, !Forall_cons.
  intros (? & ? & ? & ? & ?). repeat split; try done.
  by apply (node_at_same _ n).
Qed.

Lemma nodup_replace l1 u l2 n n' post :
  t_addr n' = t_addr n →
  NoDup (t_addr <$> (l1 ++ u :: l2 ++ n :: post)) →
  NoDup (t_addr <$> (l1 ++ u :: l2 ++ n' :: post)).
Proof.
  intros Ha. by rewrite !fmap_app, !fmap_cons, !fmap_app, !fmap_cons, Ha.
Qed.

(* n.next[k] = update[k].next[k]; update[k].next[k] = n links n at k *)
Lemma linkage_splice m update k l1 u l2 n n' post :
  linkage m (l1 ++ u :: l2 ++ n :: post) →
  k < maxLevel →
  update !! k = Some (Some (t_addr u)) →
  linked k u = true → Forall (unlinked k) l2 → unlinked k n →
  t_addr n' = t_addr n → t_e n' = t_e n →
  linked k n' = true → (∀ j, j ≠ k → linked j n' = linked j n) →
  ∃ m', splice_step update (t_addr n) m k = Some m' ∧
        length m' = length m ∧
        linkage m' (l1 ++ u :: l2 ++ n' :: post).
Proof.
  intros [Hn Hl Hd] Hk Hupd Hu Hl2 Hnk Ha He Hn'k Hn'j.
  destruct (addr_facts _ _ _ _ _ Hd) as (Hl1 & Hun & Hpost).
  pose proof (lev_ok_app_r _ _ _ _ (Hl k)) as Hku. simpl in Hku.
  destruct Hku as [Hgu Hkr]. specialize (Hgu Hu).
  rewrite nxt_unlinked_app in Hgu by done. simpl in Hgu. rewrite Hnk in Hgu.
  pose proof Hn as Hn0.
  rewrite Forall_app, Forall_cons, Forall_app, Forall_cons in Hn0.
  destruct Hn0 as (_ & Hnu & _ & Hnn & _).
  destruct (node_at_set_next m n k (nxt k post) Hnn Hk) as [m1 Hm1].
  destruct (node_at_set_next m1 u k (Some (t_addr n))
              (set_next_node_at _ _ _ _ _ _ Hm1 Hnu) Hk) as [m2 Hm2].
  exists m2. split; [|split].
  - unfold splice_step. rewrite Hupd. simpl. rewrite Hgu. simpl.
    rewrite Hm1. simpl. done.
  - by rewrite (set_next_length _ _ _ _ _ Hm2), (set_next_length _ _ _ _ _ Hm1).
  - split.
    + apply (nodes_replace _ _ _ _ n); [done..|].
      eapply Forall_impl; [exact Hn|]. intros t Ht.
      eauto using set_next_node_at.
    + intros j. destruct (decide (j = k)) as [->|Hj].
      * apply (lev_ok_relink m _ _ _ _ (l2 ++ n :: post)); [done|apply Hl| | |].
        -- intros t Ht. destruct (Hl1 t Ht).
           rewrite (get_set_next_other_node _ _ _ _ _ _ _ Hm2) by done.
           by rewrite (get_set_next_other_node _ _ _ _ _ _ _ Hm1).
        -- rewrite (get_set_next_eq _ _ _ _ _ Hm2).
           rewrite nxt_unlinked_app by done. simpl. by rewrite Hn'k, Ha.
        -- apply lev_ok_unlinked_app; [done|]. simpl. split.
           ++ intros _. rewrite Ha.
              rewrite (get_set_next_other_node _ _ _ _ _ _ _ Hm2) by done.
              by rewrite (get_set_next_eq _ _ _ _ _ Hm1).
           ++ apply (lev_ok_frame m).
              ** intros t Ht. destruct (Hpost t Ht).
                 rewrite (get_set_next_other_node _ _ _ _ _ _ _ Hm2) by done.
                 by rewrite (get_set_next_other_node _ _ _ _ _ _ _ Hm1).
              ** apply lev_ok_app_r in Hkr. simpl in Hkr. tauto.
      * apply (lev_ok_same _ _ (l1 ++ u :: l2 ++ n :: post)).
        { apply same_at_replace; [done|]. by apply Hn'j. }
        apply (lev_ok_frame m); [|apply Hl]. intros t _.
        rewrite (get_set_next_other_level _ _ _ _ _ _ _ Hm2) by done.
        by rewrite (get_set_next_other_level _ _ _ _ _ _ _ Hm1).
    + by apply (nodup_replace _ _ _ n).
Qed.

(* if update[k].next[k] == target { update[k].next[k] = target.next[k] } *)
Lemma linkage_unlink m update k l1 u l2 n n' post :
  linkage m (l1 ++ u :: l2 ++ n :: post) →
  k < maxLevel →
  update !! k = Some (Some (t_addr u)) →
  linked k u = true → Forall (unlinked k) l2 →
  t_addr n' = t_addr n → t_e n' = t_e n →
  unlinked k n' → (∀ j, j ≠ k → linked j n' = linked j n) →
  ∃ m', unlink_step update (t_addr n) m k = Some m' ∧
        length m' = length m ∧
        linkage m' (l1 ++ u :: l2 ++ n' :: post).
Proof.
  intros [Hn Hl Hd] Hk Hupd Hu Hl2 Ha He Hn'k Hn'j.
  destruct (addr_facts _ _ _ _ _ Hd) as (Hl1 & Hun & Hpost).
  pose proof (lev_ok_app_r _ _ _ _ (Hl k)) as Hku. simpl in Hku.
  destruct Hku as [Hgu Hkr]. specialize (Hgu Hu).
  rewrite nxt_unlinked_app in Hgu by done. simpl in Hgu.
  apply lev_ok_app_r in Hkr. simpl in Hkr. destruct Hkr as [Hgn Hkpost].
  pose proof Hn as Hn0.
  rewrite Forall_app, Forall_cons, Forall_app, Forall_cons in Hn0.
  destruct Hn0 as (_ & Hnu & _ & Hnn & _).
  unfold unlink_step. rewrite Hupd. simpl. rewrite Hgu. simpl.
  destruct (linked k n) eqn:Hnk.
  - rewrite decide_True by done. rewrite (Hgn eq_refl). simpl.
    destruct (node_at_set_next m u k (nxt k post) Hnu Hk) as [m1 Hm1].
    exists m1. split; [done|]. split; [by eapply set_next_length|]. split.
    + apply (nodes_replace _ _ _ _ n); [done..|].
      eapply Forall_impl; [exact Hn|]. intros t Ht.
      eauto using set_next_node_at.
    + intros j. destruct (decide (j = k)) as [->|Hj].
      * apply (lev_ok_relink m _ _ _ _ (l2 ++ n :: post)); [done|apply Hl| | |].
        -- intros t Ht. destruct (Hl1 t Ht).
           by rewrite (get_set_next_other_node _ _ _ _ _ _ _ Hm1).
        -- rewrite (get_set_next_eq _ _ _ _ _ Hm1).
           rewrite nxt_unlinked_app by done. simpl. by rewrite Hn'k.
        -- apply lev_ok_unlinked_app; [done|]. simpl. split.
           ++ by rewrite Hn'k.
           ++ apply (lev_ok_frame m); [|done].
              intros t Ht. destruct (Hpost t Ht).
              by rewrite (get_set_next_other_node _ _ _ _ _ _ _ Hm1).
      * apply (lev_ok_same _ _ (l1 ++ u :: l2 ++ n :: post)).
        { apply same_at_replace; [done|]. by apply Hn'j. }
        apply (lev_ok_frame m); [|apply Hl]. intros t _.
        by rewrite (get_set_next_other_level _ _ _ _ _ _ _ Hm1).
    + by apply (nodup_replace _ _ _ n).
  - rewrite decide_False.
    2:{ intros (t & Ht & Hta & _)%nxt_Some. by destruct (Hpost t Ht). }
    exists m. split; [done|]. split; [done|]. split.
    + by apply (nodes_replace _ _ _ _ n).
    + intros j. apply (lev_ok_same _ _ (l1 ++ u :: l2 ++ n :: post)); [|apply Hl].
      apply same_at_replace; [done|].
      destruct (decide (j = k)) as [->|Hj]; [by rewrite Hnk|by apply Hn'j].
    + by apply (nodup_replace _ _ _ n).
Qed.
End steps.

(* --------------------------------------------------------------------- *)
(* the search finds, per level, the last tower before the entry          *)
(* --------------------------------------------------------------------- *)

Section searching.
Implicit Types (m : list node) (l pre post : list tower) (en : Entry).

Lemma advance_ok m i en l2 post : ∀ fuel c,
  Forall (node_at m) (l2 ++ post) →
  lev_ok m i (l2 ++ post) →
  get_next m c i = Some (nxt i (l2 ++ post)) →
  Forall (before en) l2 → Forall (not_before en) post →
  length l2 < fuel →
  advance fuel m i en c = Some (last_linked i c l2).
Proof.
  induction l2 as [|t l2 IH]; intros fuel c Hn Hok Hc Hpre Hpost Hf.
  - destruct fuel as [|f]; [simpl in Hf; lia|]. simpl in *. rewrite Hc. simpl.
    destruct (nxt i post) as [b|] eqn:Hb; [|done].
    apply nxt_Some in Hb as (t & Ht & <- & _).
    rewrite Forall_forall in Hn, Hpost.
    destruct (Hn t Ht) as (nd & -> & He & _). simpl.
    rewrite He. by rewrite (Hpost t Ht).
  - simpl in Hn, Hok, Hc, Hf. apply Forall_cons in Hn as [Hnt Hn].
    apply Forall_cons in Hpre as [Ht Hpre]. destruct Hok as [Hgt Hok].
    destruct (linked i t) eqn:Hlt.
    + destruct fuel as [|f]; [lia|]. simpl. rewrite Hc, Hlt. simpl.
      destruct Hnt as (nd & -> & He & _). simpl. rewrite He, Ht.
      apply IH; auto with lia.
    + simpl. rewrite Hlt. apply IH; auto with lia.
Qed.

Lemma search_ok m en pre post : ∀ k cur update,
  linkage m (headT :: pre ++ post) →
  Forall (λ t, t_lo t = 0) pre →
  Forall (before en) pre → Forall (not_before en) post →
  k ≤ maxLevel → length update = maxLevel →
  cur = last_linked k 0 pre →
  ∃ update', search m en k cur update = Some update' ∧
    length update' = maxLevel ∧
    (∀ i, i < k → update' !! i = Some (Some (last_linked i 0 pre))) ∧
    (∀ i, k ≤ i → update' !! i = update !! i).
Proof.
  induction k as [|i IH]; intros cur update Hlk Hlo Hpre Hpost Hk Hlen Hcur.
  { exists update. split; [done|]. split; [done|]. split; [intros; lia|done]. }
  simpl.
  destruct (last_linked_split (S i) i headT pre) as (l1 & u & l2 & Heq & Hu & Hui & Hl2).
  { unfold linked, headT; simpl. apply Nat.ltb_lt. lia. }
  { eapply Forall_impl; [exact Hlo|]. intros t Ht. unfold linked. rewrite Ht.
    simpl. rewrite !Nat.ltb_lt. lia. }
  simpl in Hu. rewrite <-Hcur in Hu.
  destruct (split_suffix _ _ _ _ _ Heq) as [l0 Hl0].
  assert (headT :: pre ++ post = l1 ++ u :: l2 ++ post) as Heq'.
  { change (headT :: pre ++ post) with ((headT :: pre) ++ post).
    by rewrite Heq, <-app_assoc. }
  pose proof Hlk as [Hn Hl Hd]. rewrite Heq' in Hn.
  assert (advance (length m) m i en cur = Some (last_linked i 0 pre)) as Hadv.
  { pose proof (last_linked_from i headT pre l1 u l2 Heq Hui) as Hfrom.
    simpl in Hfrom. rewrite Hfrom, Hu.
    apply (advance_ok m i en l2 post).
    - apply Forall_app in Hn as [_ Hn]. by apply Forall_cons in Hn as [_ Hn].
    - specialize (Hl i). rewrite Heq' in Hl.
      apply lev_ok_app_r in Hl. simpl in Hl. tauto.
    - specialize (Hl i). rewrite Heq' in Hl.
      apply lev_ok_app_r in Hl. simpl in Hl. rewrite <-Hu. tauto.
    - rewrite Hl0 in Hpre. by apply Forall_app in Hpre as [_ ?].
    - done.
    - apply linkage_length in Hlk. rewrite Hl0 in Hlk. simpl in Hlk.
      rewrite !length_app in Hlk. lia. }
  rewrite Hadv. simpl. unfold store_ptr. rewrite decide_True by lia. simpl.
  destruct (IH (last_linked i 0 pre) (<[i:=Some (last_linked i 0 pre)]> update))
    as (update' & Hs & Hlen' & Hlow & Hhigh); auto with lia.
  { by rewrite length_insert. }
  exists update'. repeat split; [done..| |].
  - intros j Hj. destruct (decide (j = i)) as [->|Hne].
    + rewrite Hhigh by lia. apply list_lookup_insert_eq. lia.
    + apply Hlow. lia.
  - intros j Hj. rewrite Hhigh by lia. apply list_lookup_insert_ne. lia.
Qed.
End searching.

(* --------------------------------------------------------------------- *)
(* the two loops over the levels                                         *)
(* --------------------------------------------------------------------- *)

Section loops.
Implicit Types (m : list node) (pre post : list tower) (en : Entry).

Lemma for_each_app {A} (body : A → nat → option A) xs ys (a : A) :
  for_each body (xs ++ ys) a = a' ← for_each body xs a; for_each body ys a'.
Proof.
  revert a. induction xs as [|x xs IH]; intros a; simpl; [done|].
  destruct (body a x); simpl; [apply IH|done].
Qed.

Lemma for_each_snoc {A} (body : A → nat → option A) k (a a' : A) :
  for_each body (seq 0 k) a = Some a' →
  for_each body (seq 0 (S k)) a = body a' k.
Proof.
  intros H. rewrite seq_S, for_each_app, H. simpl.
  by destruct (body a' k).
Qed.

Lemma head_split k pre :
  k < maxLevel →
  ∃ l1 u l2, headT :: pre = l1 ++ u :: l2 ∧ t_addr u = last_linked k 0 pre ∧
    linked k u = true ∧ Forall (unlinked k) l2.
Proof.
  intros Hk. apply (last_linked_split k k headT pre).
  - unfold linked, headT; simpl. apply Nat.ltb_lt. lia.
  - by apply Forall_forall.
Qed.

Lemma splice_loop m0 update a en pre post h :
  linkage m0 (headT :: pre ++ mkTower a en 0 0 :: post) →
  h ≤ maxLevel →
  (∀ i, i < h → update !! i = Some (Some (last_linked i 0 pre))) →
  ∀ k, k ≤ h →
    ∃ m', for_each (splice_step update a) (seq 0 k) m0 = Some m' ∧
          length m' = length m0 ∧
          linkage m' (headT :: pre ++ mkTower a en 0 k :: post).
Proof.
  intros Hlk Hh Hupd. induction k as [|k IH]; intros Hk.
  { exists m0. split; [done|]. by split. }
  destruct IH as (m1 & Hrun & Hlen & Hlk1); [lia|].
  destruct (head_split k pre) as (l1 & u & l2 & Heq & Hu & Hul & Hl2); [lia|].
  assert (∀ n, headT :: pre ++ n :: post = l1 ++ u :: l2 ++ n :: post) as Heq'.
  { intros n. change (headT :: pre ++ n :: post) with ((headT :: pre) ++ n :: post).
    by rewrite Heq, <-app_assoc. }
  rewrite Heq' in Hlk1.
  destruct (linkage_splice m1 update k l1 u l2 (mkTower a en 0 k)
              (mkTower a en 0 (S k)) post) as (m2 & Hstep & Hlen2 & Hlk2);
    try done.
  - lia.
  - rewrite Hu. apply Hupd. lia.
  - unfold unlinked, linked; simpl. apply Nat.ltb_ge. lia.
  - unfold linked; simpl. apply Nat.ltb_lt. lia.
  - intros j Hj. unfold linked; simpl.
    destruct (Nat.ltb_spec j (S k)), (Nat.ltb_spec j k); auto; lia.
  - exists m2. rewrite (for_each_snoc _ _ _ _ Hrun), Heq'.
    split; [done|]. split; [congruence|done].
Qed.

Lemma unlink_loop m0 update a en hi pre post lv :
  linkage m0 (headT :: pre ++ mkTower a en 0 hi :: post) →
  lv ≤ maxLevel →
  (∀ i, i < lv → update !! i = Some (Some (last_linked i 0 pre))) →
  ∀ k, k ≤ lv →
    ∃ m', for_each (unlink_step update a) (seq 0 k) m0 = Some m' ∧
          length m' = length m0 ∧
          linkage m' (headT :: pre ++ mkTower a en k hi :: post).
Proof.
  intros Hlk Hlv Hupd. induction k as [|k IH]; intros Hk.
  { exists m0. split; [done|]. by split. }
  destruct IH as (m1 & Hrun & Hlen & Hlk1); [lia|].
  destruct (head_split k pre) as (l1 & u & l2 & Heq & Hu & Hul & Hl2); [lia|].
  assert (∀ n, headT :: pre ++ n :: post = l1 ++ u :: l2 ++ n :: post) as Heq'.
  { intros n. change (headT :: pre ++ n :: post) with ((headT :: pre) ++ n :: post).
    by rewrite Heq, <-app_assoc. }
  rewrite Heq' in Hlk1.
  destruct (linkage_unlink m1 update k l1 u l2 (mkTower a en k hi)
              (mkTower a en (S k) hi) post) as (m2 & Hstep & Hlen2 & Hlk2);
    try done.
  - lia.
  - rewrite Hu. apply Hupd. lia.
  - unfold unlinked, linked; simpl.
    destruct (Nat.leb_spec k k); [|lia].
    destruct k; [done|]. destruct (Nat.leb_spec k k); [|lia].
    apply andb_false_iff. left. apply Nat.leb_gt. lia.
  - intros j Hj. unfold linked; simpl. f_equal.
    destruct j as [|j].
    + destruct k; [lia|done].
    + destruct (Nat.leb_spec k j), (Nat.leb_spec k (S j)); auto; lia.
  - exists m2. rewrite (for_each_snoc _ _ _ _ Hrun), Heq'.
    split; [done|]. split; [congruence|done].
Qed.

(* a tower linked at no level is not part of the structure *)
Lemma linkage_drop m l1 t l2 :
  (∀ i, unlinked i t) → linkage m (l1 ++ t :: l2) → linkage m (l1 ++ l2).
Proof.
  intros Ht [Hn Hl Hd]. split.
  - rewrite Forall_app, Forall_cons in Hn. rewrite Forall_app. tauto.
  - intros i. by eapply lev_ok_drop.
  - rewrite fmap_app, fmap_cons, NoDup_app, NoDup_cons in Hd.
    rewrite fmap_app, NoDup_app. destruct Hd as (? & Hx & ? & ?).
    repeat split; [done| |done]. intros x Hx1 Hx2. eapply Hx; [done|by right].
Qed.
End loops.

(* --------------------------------------------------------------------- *)
(* randomLevel                                                           *)
(* --------------------------------------------------------------------- *)

Lemma successes_le d p bound : successes d p bound ≤ bound.
Proof.
  revert p. induction bound as [|b IH]; intros p; simpl; [done|].
  destruct (Qltb (d p) pFactor); [|lia]. specialize (IH (S p)). lia.
Qed.

Lemma randomLevel_loop_spec b : ∀ l r fuel,
  l + b = maxLevel → b ≤ fuel →
  randomLevel_loop fuel l r =
    Some (l + successes (draws r) (pos r) b,
          mkRand (draws r)
                 (pos r + Nat.min (S (successes (draws r) (pos r) b)) b)).
Proof.
  induction b as [|b IH]; intros l r fuel Hl Hf.
  - assert ((l <? maxLevel) = false) as Hlt by (apply Nat.ltb_ge; lia).
    destruct r as [d p].
    destruct fuel; cbn [randomLevel_loop draws pos successes]; rewrite Hlt.
    all: by rewrite Nat.min_0_r, !Nat.add_0_r.
  - assert ((l <? maxLevel) = true) as Hlt by (apply Nat.ltb_lt; lia).
    destruct fuel as [|f]; [lia|]. destruct r as [d p].
    cbn [randomLevel_loop Float64 draws pos successes]. rewrite Hlt.
    destruct (Qltb (d p) pFactor).
    + rewrite (IH (S l) (mkRand d (S p)) f) by lia. simpl draws; simpl pos.
      f_equal. f_equal; [lia|]. f_equal. lia.
    + f_equal. f_equal; [lia|]. f_equal. lia.
Qed.

Lemma randomLevel_spec (r : Rand) :
  randomLevel r = Some (level_spec r, mkRand (draws r) (pos r + flips r)).
Proof.
  unfold randomLevel. rewrite (randomLevel_loop_spec (maxLevel - 1)); [|done|unfold maxLevel; lia].
  unfold flips, level_spec. done.
Qed.

Lemma level_spec_bounds (r : Rand) : 1 ≤ level_spec r ≤ maxLevel.
Proof.
  unfold level_spec. pose proof (successes_le (draws r) (pos r) (maxLevel - 1)).
  unfold maxLevel in *. lia.
Qed.

(* --------------------------------------------------------------------- *)
(* raising the update vector, shrinking the level, allocating a node     *)
(* --------------------------------------------------------------------- *)

Section around.
Implicit Types (m : list node) (l ns pre post : list tower).

(* for i := s.lvl; i < lvl; i++ { update[i] = s.head } *)
Lemma raise_ok hd n : ∀ a (update : list (option nat)),
  length update = maxLevel → a + n ≤ maxLevel →
  ∃ update',
    for_each (λ upd i, store_ptr upd i (Some hd)) (seq a n) update = Some update' ∧
    length update' = maxLevel ∧
    (∀ i, a ≤ i < a + n → update' !! i = Some (Some hd)) ∧
    (∀ i, i < a → update' !! i = update !! i).
Proof.
  induction n as [|n IH]; intros a update Hlen Ha.
  { exists update. split; [done|]. split; [done|]. split; [intros; lia|done]. }
  cbn [seq for_each].
  assert (store_ptr update a (Some hd) = Some (<[a:=Some hd]> update)) as ->.
  { unfold store_ptr. rewrite decide_True by lia. done. }
  cbn [mbind option_bind].
  destruct (IH (S a) (<[a:=Some hd]> update)) as (update' & Hrun & Hlen' & Hin & Hout).
  { by rewrite length_insert. }
  { lia. }
  exists update'. split; [done|]. split; [done|]. split.
  - intros i Hi. destruct (decide (i = a)) as [->|Hne].
    + rewrite Hout by lia. apply list_lookup_insert_eq. lia.
    + apply Hin. lia.
  - intros i Hi. rewrite Hout by lia. apply list_lookup_insert_ne. lia.
Qed.

Lemma head_next m ns i :
  linkage m (headT :: ns) → i < maxLevel → get_next m 0 i = Some (nxt i ns).
Proof.
  intros [_ Hl _] Hi. destruct (Hl i) as [H _]. apply H.
  unfold linked, headT; simpl. apply Nat.ltb_lt. lia.
Qed.

Lemma settled_linked lv t i : settled lv t → linked i t = (i <? t_hi t).
Proof. intros [Hlo _]. unfold linked. by rewrite Hlo. Qed.

Lemma shrink_ok m ns : ∀ lv,
  linkage m (headT :: ns) → Forall (settled lv) ns → 1 ≤ lv ≤ maxLevel →
  ∃ lv', shrink m 0 lv = Some lv' ∧ 1 ≤ lv' ≤ lv ∧
    Forall (settled lv') ns ∧
    (lv' = 1 ∨ ∃ t, t ∈ ns ∧ linked (lv' - 1) t = true).
Proof.
  intros lv Hlk. induction lv as [|lv IH]; intros Hs Hlv; [lia|].
  destruct lv as [|i].
  { exists 1. simpl. split; [done|]. split; [lia|]. split; [done|by left]. }
  cbn [shrink]. rewrite (head_next m ns (S i)) by (done || lia). simpl.
  destruct (nxt (S i) ns) as [b|] eqn:Hb.
  - exists (S (S i)). split; [done|]. split; [lia|]. split; [done|]. right.
    apply nxt_Some in Hb as (t & ? & _ & ?). exists t. split; [done|].
    by replace (S (S i) - 1) with (S i) by lia.
  - apply nxt_None in Hb.
    destruct IH as (lv' & Hrun & Hle & Hs' & Htop); [|lia|].
    + rewrite Forall_forall in Hs, Hb. apply Forall_forall. intros t Ht.
      specialize (Hs t Ht). specialize (Hb t Ht). unfold unlinked in Hb.
      rewrite (settled_linked _ _ _ Hs) in Hb. apply Nat.ltb_ge in Hb.
      destruct Hs as (? & ? & ?). repeat split; auto with lia.
    + exists lv'. split; [done|]. split; [lia|]. by split.
Qed.

Lemma lev_ok_insert m i l1 t l2 :
  unlinked i t → lev_ok m i (l1 ++ l2) → lev_ok m i (l1 ++ t :: l2).
Proof.
  intros Ht. induction l1 as [|t' l1 IH]; simpl.
  - intros ?. split; [|done]. by rewrite Ht.
  - intros [H1 H2]. split; [|auto].
    intros Hl. rewrite (H1 Hl), !nxt_app. simpl. by rewrite Ht.
Qed.

(* n := &node{e: e} *)
Lemma linkage_alloc m l1 l2 en :
  linkage m (l1 ++ l2) →
  linkage (m ++ [mkNode en nilPtrs]) (l1 ++ mkTower (length m) en 0 0 :: l2).
Proof.
  intros [Hn Hl Hd].
  assert (∀ t, t ∈ l1 ++ l2 → t_addr t < length m) as Hlt.
  { intros t Ht. rewrite Forall_forall in Hn.
    destruct (Hn t Ht) as (nd & Hnd & _). by apply lookup_lt_Some in Hnd. }
  assert (Forall (node_at (m ++ [mkNode en nilPtrs])) (l1 ++ l2)) as Hn'.
  { eapply Forall_impl; [exact Hn|]. intros t (nd & Hnd & ?). exists nd.
    split; [|done]. by apply lookup_app_l_Some. }
  split.
  - rewrite Forall_app in Hn'. rewrite Forall_app, Forall_cons.
    repeat split; [tauto| |tauto].
    exists (mkNode en nilPtrs). simpl. split; [|done].
    by rewrite lookup_app_r, Nat.sub_diag.
  - intros i. apply lev_ok_insert.
    { unfold unlinked, linked. simpl. by destruct i. }
    apply (lev_ok_frame m); [|done]. intros t Ht. unfold get_next.
    by rewrite lookup_app_l by auto.
  - rewrite fmap_app, fmap_cons, NoDup_app, NoDup_cons.
    rewrite fmap_app, NoDup_app in Hd. destruct Hd as (Hd1 & Hd12 & Hd2).
    assert (∀ l, (∀ t, t ∈ l → t_addr t < length m) →
                 length m ∉ t_addr <$> l) as Hfresh.
    { intros l H (t & Heq & Ht)%list_elem_of_fmap_1. specialize (H t Ht). simpl in *. lia. }
    repeat split; [done| | |done].
    + intros a Ha [->|Ha2]%elem_of_cons; [|by eapply Hd12].
      revert Ha. apply Hfresh. intros t Ht. apply Hlt. set_solver.
    + apply Hfresh. intros t Ht. apply Hlt. set_solver.
Qed.
End around.

(* ===================================================================== *)
(* The representation invariant                                          *)
(* ===================================================================== *)

Section rep.
Implicit Types (s : SkipList) (ns pre post : list tower) (t : tower).

Lemma settled_top_unlinked lv i pre c :
  Forall (settled lv) pre → lv ≤ i → last_linked i c pre = c.
Proof.
  intros H Hi. apply last_linked_unlinked. eapply Forall_impl; [exact H|].
  intros t Ht. unfold unlinked. rewrite (settled_linked _ _ _ Ht).
  apply Nat.ltb_ge. destruct Ht as (_ & _ & ?). lia.
Qed.

Lemma settled_mono lv lv' t : lv ≤ lv' → settled lv t → settled lv' t.
Proof. intros ? (? & ? & ?). repeat split; auto with lia. Qed.

Lemma Rep_search s pre post en :
  Rep s (pre ++ post) →
  Forall (before en) pre → Forall (not_before en) post →
  ∃ update, search (mem s) en (lvl s) (head s) nilPtrs = Some update ∧
    length update = maxLevel ∧
    ∀ i, i < lvl s → update !! i = Some (Some (last_linked i 0 pre)).
Proof.
  intros [Hh Hlk _ _ Hlv Hset _] Hpre Hpost.
  apply Forall_app in Hset as [Hset _].
  destruct (search_ok (mem s) en pre post (lvl s) (head s) nilPtrs)
    as (update & ? & ? & ? & _); try done.
  - eapply Forall_impl; [exact Hset|]. by intros t [? _].
  - lia.
  - by rewrite Hh, (settled_top_unlinked (lvl s)).
  - by exists update.
Qed.

Lemma removeLocked_ok s pre t post :
  Rep s (pre ++ t :: post) →
  ∃ s', removeLocked s (User (t_e t)) (t_e t) = Some s' ∧
        Rep s' (pre ++ post) ∧
        byUser s' = delete (User (t_e t)) (byUser s).
Proof.
  intros HR. pose proof HR as [Hh Hlk Hsort Hidx Hlv Hset Htop].
  destruct t as [a en lo hi].
  pose proof Hset as Hset0.
  rewrite Forall_app, Forall_cons in Hset0. destruct Hset0 as (Hspre & Hst & Hspost).
  destruct Hst as (Hlo & Hhi1 & Hhi2). simpl in Hlo, Hhi1, Hhi2. subst lo. simpl.
  apply StronglySorted_app in Hsort as (Hcross & Hsp & Hsq).
  apply StronglySorted_cons in Hsq as [Htq Hsq].
  assert (Forall (before en) pre) as Hpre.
  { apply Forall_forall. intros x Hx. apply (Hcross x (mkTower a en 0 hi)); [done|left]. }
  assert (Forall (not_before en) (mkTower a en 0 hi :: post)) as Hpost.
  { constructor; [apply less_irrefl|].
    eapply Forall_impl; [exact Htq|]. intros x Hx. by apply less_asym. }
  destruct (Rep_search s pre (mkTower a en 0 hi :: post) en HR Hpre Hpost)
    as (update & Hsearch & Hlen & Hupd).
  unfold removeLocked. rewrite Hsearch. cbn [mbind option_bind].
  rewrite (Hupd 0) by lia. cbn [mbind option_bind].
  destruct (head_split 0 pre) as (l1 & u & l2 & Heq & Hu & Hul & Hl2);
    [unfold maxLevel; lia|].
  assert (headT :: pre ++ mkTower a en 0 hi :: post
          = l1 ++ u :: l2 ++ mkTower a en 0 hi :: post) as Heq'.
  { change (headT :: pre ++ ?x) with ((headT :: pre) ++ x).
    by rewrite Heq, <-app_assoc. }
  assert (get_next (mem s) (last_linked 0 0 pre) 0 = Some (Some a)) as ->.
  { destruct Hlk as [_ Hl _]. specialize (Hl 0). rewrite Heq' in Hl.
    apply lev_ok_app_r in Hl. destruct Hl as [Hl _]. rewrite <-Hu, (Hl Hul).
    rewrite nxt_unlinked_app by done. simpl. unfold linked. simpl.
    by destruct hi; [lia|]. }
  cbn [mbind option_bind].
  assert (node_at (mem s) (mkTower a en 0 hi)) as (tn & Htn & Hetn & _).
  { destruct Hlk as [Hn _ _]. apply Forall_cons in Hn as [_ Hn].
    apply Forall_app in Hn as [_ Hn]. by apply Forall_cons in Hn as [? _]. }
  simpl in Htn, Hetn. rewrite Htn. cbn [mbind option_bind].
  rewrite Hetn, decide_True by done.
  destruct (unlink_loop (mem s) update a en hi pre post (lvl s) Hlk
              ltac:(lia) Hupd (lvl s) ltac:(lia)) as (m' & Hrun & Hlen' & Hlk').
  rewrite Hrun. cbn [mbind option_bind].
  apply (linkage_drop _ (headT :: pre)) in Hlk'.
  2:{ intros i. unfold unlinked, linked. simpl.
      destruct (Nat.leb_spec (lvl s) i), (Nat.ltb_spec i hi); auto; lia. }
  destruct (shrink_ok m' (pre ++ post) (lvl s)) as (lv' & Hshr & Hlv' & Hset' & Htop');
    [done|by apply Forall_app|done|].
  rewrite Hh, Hshr. cbn [mbind option_bind].
  eexists. split; [done|]. split; [|done]. split; simpl; try done.
  - apply StronglySorted_app. repeat split; [|done..].
    intros x1 x2 H1 H2. apply Hcross; [done|by right].
  - intros v b. rewrite lookup_delete_Some, Hidx. split.
    + intros (Hne & x & Hx & Hxa & Hxu). exists x. split; [|done].
      apply elem_of_app in Hx as [?|[->|?]%elem_of_cons]; [elem|done|elem].
    + intros (x & Hx & Hxa & Hxu). split.
      * intros Heqv.
        destruct Hlk as [_ _ Hd].
        apply (addr_mid (headT :: pre) (mkTower a en 0 hi) post x);
          [done|revert Hx; elem|].
        simpl. rewrite Hxa.
        assert (byUser s !! v = Some b) as Hb.
        { apply Hidx. exists x. split; [revert Hx; elem|done]. }
        assert (byUser s !! v = Some a) as Ha.
        { apply Hidx. exists (mkTower a en 0 hi). split; [elem|done]. }
        congruence.
      * exists x. split; [revert Hx; elem|done].
  - lia.
Qed.

Lemma Update_unfold s user score :
  Update s user score =
    s1 ← match byUser s !! user with
         | Some old => nd ← mem s !! old; removeLocked s user (e nd)
         | None => Some s
         end;
    Update_insert s1 user score.
Proof. reflexivity. Qed.

Lemma sorted_split en ns :
  StronglySorted tower_lt ns →
  ∃ pre post, ns = pre ++ post ∧
    Forall (before en) pre ∧ Forall (not_before en) post.
Proof.
  induction 1 as [|t ns Hs IH Ht].
  { exists [], []. by repeat split. }
  destruct (less (t_e t) en) eqn:Hlt.
  - destruct IH as (pre & post & -> & Hpre & Hpost).
    exists (t :: pre), post. repeat split; [|done]. by constructor.
  - exists [], (t :: ns). repeat split; [constructor|]. constructor; [done|].
    eapply Forall_impl; [exact Ht|]. intros x Hx. unfold not_before.
    destruct (less (t_e x) en) eqn:Hx'; [|done].
    by rewrite (less_trans _ _ _ Hx Hx') in Hlt.
Qed.

Lemma Update_insert_ok s ns user score :
  Rep s ns → byUser s !! user = None →
  ∃ s' pre post lv,
    Update_insert s user score = Some s' ∧ ns = pre ++ post ∧
    Rep s' (pre ++ mkTower (length (mem s)) (mkEntry user score) 0 lv :: post).
Proof.
  intros HR Hnone. set (en := mkEntry user score).
  destruct (sorted_split en ns (rep_sorted _ _ HR))
    as (pre & post & -> & Hpre & Hpost).
  pose proof HR as [Hh Hlk Hsort Hidx Hlv Hset Htop].
  destruct (Rep_search s pre post en HR Hpre Hpost)
    as (update & Hsearch & Hlen & Hupd).
  unfold Update_insert. fold en. rewrite Hsearch. cbn [mbind option_bind].
  rewrite randomLevel_spec. cbn [mbind option_bind].
  pose proof (level_spec_bounds (rng s)) as Hl.
  set (l := level_spec (rng s)) in *.
  set (n := length (mem s)).
  assert (∃ update', (if lvl s <? l then
               for_each (λ upd i, store_ptr upd i (Some (head s)))
                        (seq (lvl s) (l - lvl s)) update
             else Some update) = Some update' ∧
           ∀ i, i < l → update' !! i = Some (Some (last_linked i 0 pre)))
    as (update' & -> & Hupd').
  { destruct (Nat.ltb_spec (lvl s) l) as [Hlt|Hge].
    - destruct (raise_ok (head s) (l - lvl s) (lvl s) update)
        as (update' & Hrun & _ & Hin & Hout); [done|lia|].
      exists update'. split; [done|]. intros i Hi.
      destruct (decide (i < lvl s)).
      + rewrite Hout by done. by apply Hupd.
      + rewrite Hin by lia. rewrite Hh.
        rewrite (settled_top_unlinked (lvl s)); [done| |lia].
        by apply Forall_app in Hset as [? _].
    - exists update. split; [done|]. intros i Hi. apply Hupd. lia. }
  cbn [mbind option_bind].
  pose proof (linkage_alloc (mem s) (headT :: pre) post en Hlk) as Hlk0.
  destruct (splice_loop _ update' n en pre post l Hlk0 ltac:(lia) Hupd' l ltac:(lia))
    as (m' & Hrun & Hlen' & Hlk').
  rewrite Hrun. cbn [mbind option_bind].
  eexists _, pre, post, l. split; [done|]. split; [done|].
  apply StronglySorted_app in Hsort as (Hcross & Hsp & Hsq).
  assert (∀ x, x ∈ pre ++ post → User (t_e x) ≠ user) as Hfresh.
  { intros x Hx Hxu. assert (byUser s !! user = Some (t_addr x)) as Hb.
    { apply Hidx. by exists x. }
    congruence. }
  split; simpl; try done.
  - apply StronglySorted_app. split; [|split; [done|]].
    + intros x1 x2 H1 [->|H2]%elem_of_cons; [|by apply Hcross].
      rewrite Forall_forall in Hpre. by apply Hpre.
    + apply StronglySorted_cons. split; [|done].
      apply Forall_forall. intros x Hx. unfold tower_lt. simpl.
      rewrite Forall_forall in Hpost. specialize (Hpost x Hx).
      destruct (less_total (t_e x) en) as [H|[H|H]]; [congruence| |done].
      exfalso. apply (Hfresh x); [elem|]. by rewrite H.
  - intros v b. destruct (decide (v = user)) as [->|Hv].
    + rewrite lookup_insert_eq. split.
      * intros [= <-]. exists (mkTower n en 0 l). split; [elem|done].
      * intros (x & Hx & Hxa & Hxu).
        apply elem_of_app in Hx as [Hx|[->|Hx]%elem_of_cons].
        -- exfalso. apply (Hfresh x); [elem|done].
        -- simpl in Hxa. by rewrite Hxa.
        -- exfalso. apply (Hfresh x); [elem|done].
    + rewrite lookup_insert_ne by done. rewrite Hidx. split.
      * intros (x & Hx & ?). exists x. split; [revert Hx; elem|done].
      * intros (x & Hx & Hxa & Hxu). exists x. split; [|done].
        apply elem_of_app in Hx as [Hx|[->|Hx]%elem_of_cons]; [elem| |elem].
        simpl in Hxu. congruence.
  - destruct (Nat.ltb_spec (lvl s) l); lia.
  - assert (lvl s ≤ if lvl s <? l then l else lvl s) as Hmono
      by (destruct (Nat.ltb_spec (lvl s) l); lia).
    apply Forall_app in Hset as [Hs1 Hs2].
    apply Forall_app. split; [|constructor].
    + eapply Forall_impl; [exact Hs1|]. intros x. by apply settled_mono.
    + split; [done|]. simpl. destruct (Nat.ltb_spec (lvl s) l); lia.
    + eapply Forall_impl; [exact Hs2|]. intros x. by apply settled_mono.
  - destruct (Nat.ltb_spec (lvl s) l) as [Hlt|Hge].
    + right. exists (mkTower n en 0 l). split; [elem|]. unfold linked.
      cbn [t_lo t_hi]. rewrite andb_true_iff, Nat.leb_le, Nat.ltb_lt. lia.
    + destruct Htop as [?|(x & Hx & ?)]; [by left|].
      right. exists x. split; [revert Hx; elem|done].
Qed.
End rep.

(* ===================================================================== *)
(* What the calls do to the ranked entries                               *)
(* ===================================================================== *)

Section calls.
Implicit Types (s : SkipList) (ns pre post : list tower) (t : tower).

Lemma entry_of_Some u l x : entry_of u l = Some x → x ∈ l ∧ User x = u.
Proof.
  induction l as [|y l IH]; simpl; [done|]. case_decide.
  - intros [= <-]. split; [left|done].
  - intros [? ?]%IH. split; [by right|done].
Qed.

Lemma entry_of_None u l x : entry_of u l = None → x ∈ l → User x ≠ u.
Proof.
  induction l as [|y l IH]; simpl; [by intros _ ?%elem_of_nil|].
  case_decide; [done|]. intros Hn [->|?]%elem_of_cons; auto.
Qed.

Lemma Rep_absent s ns u :
  Rep s ns → byUser s !! u = None → ∀ t, t ∈ ns → User (t_e t) ≠ u.
Proof.
  intros HR Hn t Ht Hu.
  assert (byUser s !! u = Some (t_addr t)) as H by (apply (rep_index _ _ HR); eauto).
  congruence.
Qed.

Lemma Rep_node s ns t :
  Rep s ns → t ∈ ns → ∃ nd, mem s !! t_addr t = Some nd ∧ e nd = t_e t.
Proof.
  intros HR Ht. destruct (rep_link _ _ HR) as [Hn _ _].
  apply Forall_cons in Hn as [_ Hn]. rewrite Forall_forall in Hn.
  destruct (Hn t Ht) as (nd & ? & ? & _). eauto.
Qed.

Lemma Remove_ok s ns u :
  Rep s ns →
  ∃ s' ns', Remove s u = Some s' ∧ Rep s' ns' ∧ byUser s' !! u = None ∧
    ∀ x, x ∈ entries ns' ↔ x ∈ entries ns ∧ User x ≠ u.
Proof.
  intros HR. unfold Remove. destruct (byUser s !! u) as [a|] eqn:Ha.
  - pose proof Ha as Ha0.
    apply (rep_index _ _ HR) in Ha as (t & Ht & <- & <-).
    destruct (Rep_node s ns t HR Ht) as (nd & -> & Hnd). cbn [mbind option_bind].
    rewrite Hnd.
    apply list_elem_of_split in Ht as (pre & post & ->).
    destruct (removeLocked_ok s pre t post HR) as (s' & -> & HR' & Hby).
    exists s', (pre ++ post). split; [done|]. split; [done|].
    assert (byUser s' !! User (t_e t) = None) as Hnone
      by (rewrite Hby; apply lookup_delete_eq).
    split; [done|]. intros x. unfold entries. rewrite !list_elem_of_fmap. split.
    + intros (y & -> & Hy). split.
      * exists y. split; [done|]. revert Hy. elem.
      * by apply (Rep_absent s' (pre ++ post)).
    + intros [(y & -> & Hy) Hne]. exists y. split; [done|].
      apply elem_of_app in Hy as [?|[->|?]%elem_of_cons]; [elem|done|elem].
  - exists s, ns. split; [done|]. split; [done|]. split; [done|].
    intros x. unfold entries. rewrite list_elem_of_fmap. split; [|tauto].
    intros (y & -> & Hy). split; [eauto|]. by apply (Rep_absent s ns).
Qed.

Lemma Update_Remove s u sc :
  Update s u sc = s1 ← Remove s u; Update_insert s1 u sc.
Proof. reflexivity. Qed.

Lemma Update_ok s ns u sc :
  Rep s ns →
  ∃ s' ns', Update s u sc = Some s' ∧ Rep s' ns' ∧
    ∀ x, x ∈ entries ns' ↔ x = mkEntry u sc ∨ (x ∈ entries ns ∧ User x ≠ u).
Proof.
  intros HR. rewrite Update_Remove.
  destruct (Remove_ok s ns u HR) as (s1 & ns1 & -> & HR1 & Hnone & Hmem).
  cbn [mbind option_bind].
  destruct (Update_insert_ok s1 ns1 u sc HR1 Hnone)
    as (s' & pre & post & lv & Hins & -> & HR').
  exists s', (pre ++ mkTower (length (mem s1)) (mkEntry u sc) 0 lv :: post).
  split; [done|]. split; [done|].
  intros x. rewrite <-Hmem. unfold entries.
  rewrite !fmap_app, fmap_cons, !elem_of_app, elem_of_cons. simpl. tauto.
Qed.
End calls.

(* ===================================================================== *)
(* What TopN and Get see                                                 *)
(* ===================================================================== *)

Section views.
Implicit Types (s : SkipList) (ns : list tower) (t : tower).

Lemma less_ranked a b : less a b = true ↔ ranked_before a b.
Proof.
  unfold less, ranked_before, String.ltb.
  destruct (Z.eqb_spec (Score a) (Score b)) as [Heq|Hne].
  - split.
    + intros H. right. split; [done|].
      by destruct (String.compare (User a) (User b)).
    + intros [?|[_ ->]]; [lia|done].
  - rewrite Z.gtb_gt. split; [auto|]. intros [?|[? _]]; [done|lia].
Qed.

Lemma collect_ok m n rest : ∀ fuel out,
  Forall (node_at m) rest → lev_ok m 0 rest →
  Forall (λ t, linked 0 t = true) rest →
  length rest < fuel →
  collect fuel m (nxt 0 rest) n out =
    Some (out ++ take (Z.to_nat n - length out) (entries rest)).
Proof.
  induction rest as [|t rest IH]; intros fuel out Hn Hl Hlk Hf.
  - destruct fuel; [simpl in Hf; lia|]. simpl.
    by rewrite take_nil, app_nil_r.
  - destruct fuel as [|f]; [simpl in Hf; lia|].
    apply Forall_cons in Hn as [(nd & Hnd & He & _) Hn].
    apply Forall_cons in Hlk as [Ht Hlk]. destruct Hl as [Hg Hl].
    specialize (Hg Ht). unfold get_next in Hg. rewrite Hnd in Hg. simpl in Hg.
    cbn [collect nxt]. rewrite Ht.
    destruct (Z.ltb_spec (Z.of_nat (length out)) n) as [Hlt|Hge].
    + rewrite Hnd. cbn [mbind option_bind]. rewrite Hg. cbn [mbind option_bind].
      rewrite IH; [|done..|simpl in Hf; lia]. f_equal.
      rewrite length_app. simpl length.
      replace (Z.to_nat n - length out) with (S (Z.to_nat n - (length out + 1))) by lia.
      simpl. by rewrite He, <-app_assoc.
    + replace (Z.to_nat n - length out) with 0 by lia.
      by rewrite take_0, app_nil_r.
Qed.

Lemma maxCap_eq : maxAlloc = (2 ^ 48)%Z ∧ maxCap = (maxAlloc / entryBytes)%Z.
Proof. split; reflexivity. Qed.

Lemma make_ok_iff (n : Z) : make_ok n = true ↔ (n ≤ maxCap)%Z.
Proof. unfold make_ok, entryBytes, maxAlloc, maxCap. rewrite Z.leb_le. lia. Qed.

Lemma TopN_spec s ns n :
  Rep s ns →
  TopN s n = if (0 <? n)%Z && negb (make_ok n) then None
             else Some (take (Z.to_nat n) (entries ns)).
Proof.
  intros HR. unfold TopN. destruct (Z.leb_spec n 0) as [Hle|Hgt].
  { destruct (Z.ltb_spec 0 n); [lia|]. simpl.
    by replace (Z.to_nat n) with 0 by lia. }
  destruct (Z.ltb_spec 0 n); [|lia]. destruct (make_ok n); [|done]. simpl.
  pose proof (rep_link _ _ HR) as Hlk.
  rewrite (rep_head _ _ HR), (head_next _ ns) by (done || unfold maxLevel; lia).
  cbn [mbind option_bind]. pose proof (linkage_length _ _ Hlk) as Hlen.
  destruct Hlk as [Hn Hl _]. apply Forall_cons in Hn as [_ Hn].
  rewrite (collect_ok _ _ ns); simpl in *.
  - by rewrite Nat.sub_0_r.
  - done.
  - apply (Hl 0).
  - eapply Forall_impl; [exact (rep_settled _ _ HR)|]. intros t Ht.
    rewrite (settled_linked _ _ _ Ht). apply Nat.ltb_lt.
    destruct Ht as (_ & ? & _). lia.
  - lia.
Qed.

Lemma TopN_ok s ns n :
  Rep s ns → (n ≤ maxCap)%Z → TopN s n = Some (take (Z.to_nat n) (entries ns)).
Proof.
  intros HR Hn. rewrite (TopN_spec s ns n HR).
  apply make_ok_iff in Hn. rewrite Hn. by rewrite andb_false_r.
Qed.

Lemma TopN_Some s ns n l :
  Rep s ns → TopN s n = Some l → l = take (Z.to_nat n) (entries ns).
Proof.
  intros HR. rewrite (TopN_spec s ns n HR).
  destruct ((0 <? n)%Z && negb (make_ok n)); [done|]. by intros [= <-].
Qed.

Lemma Get_spec s ns u :
  Rep s ns → Get s u = Some (found (entry_of u (entries ns))).
Proof.
  intros HR. unfold Get. destruct (byUser s !! u) as [a|] eqn:Ha.
  - destruct (entry_of u (entries ns)) as [x|] eqn:Hx.
    + apply entry_of_Some in Hx as [(t & -> & Ht)%list_elem_of_fmap_1 Hu].
      assert (byUser s !! u = Some (t_addr t)) as Ha'
        by (apply (rep_index _ _ HR); eauto).
      destruct (Rep_node s ns t HR Ht) as (nd & Hnd & He).
      assert (a = t_addr t) as -> by congruence.
      rewrite Hnd. simpl. by rewrite He.
    + exfalso. apply (rep_index _ _ HR) in Ha as (t & Ht & _ & Hu).
      apply (entry_of_None u (entries ns) (t_e t) Hx); [|done].
      by apply list_elem_of_fmap_2.
  - destruct (entry_of u (entries ns)) as [x|] eqn:Hx; [|done].
    exfalso. apply entry_of_Some in Hx as [(t & -> & Ht)%list_elem_of_fmap_1 Hu].
    by apply (Rep_absent s ns u HR Ha t).
Qed.

Lemma Rep_with_rng s ns r : Rep s ns → Rep (with_rng s r) ns.
Proof. intros []. by split. Qed.

Lemma entries_sorted s ns :
  Rep s ns → StronglySorted ranked_before (entries ns).
Proof.
  intros HR. apply (StronglySorted_fmap t_e tower_lt); [|apply (rep_sorted _ _ HR)].
  intros x y. apply less_ranked.
Qed.

Lemma ranked_irrefl a : ¬ ranked_before a a.
Proof. rewrite <-less_ranked. by rewrite less_irrefl. Qed.

Lemma ranked_asym a b : ranked_before a b → ranked_before b a → a = b.
Proof.
  rewrite <-!less_ranked. intros H1 H2. by rewrite (less_asym _ _ H1) in H2.
Qed.

Lemma sorted_NoDup (l : list Entry) :
  StronglySorted ranked_before l → NoDup l.
Proof.
  induction 1 as [|x l _ IH Hx]; constructor; [|done].
  intros Hin. rewrite Forall_forall in Hx. by apply (ranked_irrefl x), Hx.
Qed.

(* a ranking is determined by the entries in it *)
Lemma ranking_unique (l1 l2 : list Entry) :
  StronglySorted ranked_before l1 → StronglySorted ranked_before l2 →
  (∀ x, x ∈ l1 ↔ x ∈ l2) → l1 = l2.
Proof.
  intros H1 H2 Hmem. apply (StronglySorted_unique_strong ranked_before); [|done..|].
  - intros. by apply ranked_asym.
  - apply NoDup_Permutation; auto using sorted_NoDup.
Qed.

(* one user, one entry *)
Lemma entries_users s ns x y :
  Rep s ns → x ∈ entries ns → y ∈ entries ns → User x = User y → x = y.
Proof.
  intros HR (t & -> & Ht)%list_elem_of_fmap_1 (t' & -> & Ht')%list_elem_of_fmap_1 Hu.
  assert (byUser s !! User (t_e t) = Some (t_addr t)) as H1
    by (apply (rep_index _ _ HR); eauto).
  assert (byUser s !! User (t_e t) = Some (t_addr t')) as H2
    by (apply (rep_index _ _ HR); eauto).
  destruct (Rep_node s ns t HR Ht) as (nd & Hnd & <-).
  destruct (Rep_node s ns t' HR Ht') as (nd' & Hnd' & <-).
  congruence.
Qed.


Lemma same_entries_same_view s1 ns1 s2 ns2 :
  Rep s1 ns1 → Rep s2 ns2 → entries ns1 = entries ns2 → same_view s1 s2.
Proof.
  intros H1 H2 Heq. split.
  - intros n. by rewrite (TopN_spec _ _ _ H1), (TopN_spec _ _ _ H2), Heq.
  - intros u. by rewrite (Get_spec _ _ _ H1), (Get_spec _ _ _ H2), Heq.
Qed.
End views.

(* ===================================================================== *)
(* Reachable boards                                                      *)
(* ===================================================================== *)

Section reach.
Implicit Types (s : SkipList) (ns : list tower) (c : call) (cs : list call).

Lemma Rep_new seed : Rep (NewSkipList seed) [].
Proof.
  split; cbn [NewSkipList mem head lvl byUser]; try done.
  - split.
    + constructor; [|constructor]. by exists (mkNode zeroEntry nilPtrs).
    + intros i. split; [|done]. unfold linked, headT. cbn [t_lo t_hi t_addr].
      intros [_ Hi%Nat.ltb_lt]%andb_true_iff. unfold get_next. simpl.
      by apply lookup_replicate_2.
    + apply NoDup_singleton.
  - constructor.
  - intros u a. rewrite lookup_empty. split; [done|].
    by intros (t & ?%elem_of_nil & _).
  - unfold maxLevel. lia.
  - by left.
Qed.

Lemma do_call_ok s ns c :
  Rep s ns →
  ∃ s' ns', do_call s c = Some s' ∧ Rep s' ns' ∧
    ∀ x, x ∈ entries ns' ↔ after_call c (entries ns) x.
Proof.
  intros HR. destruct c as [u sc|u]; simpl.
  - apply (Update_ok s ns u sc HR).
  - destruct (Remove_ok s ns u HR) as (s' & ns' & ? & ? & _ & ?). eauto.
Qed.

Lemma run_ok cs : ∀ s ns,
  Rep s ns → ∃ s' ns', run cs s = Some s' ∧ Rep s' ns'.
Proof.
  induction cs as [|c cs IH]; intros s ns HR; simpl; [eauto|].
  destruct (do_call_ok s ns c HR) as (s1 & ns1 & -> & HR1 & _). simpl. eauto.
Qed.

Lemma reachable_Rep s : reachable s → ∃ ns, Rep s ns.
Proof.
  intros (seed & cs & Hrun).
  destruct (run_ok cs _ _ (Rep_new seed)) as (s' & ns & Hrun' & HR).
  exists ns. congruence.
Qed.

Lemma reachable_new seed : reachable (NewSkipList seed).
Proof. by exists seed, []. Qed.

(* the same call on two boards with the same ranking *)
Lemma do_call_same s1 ns1 s2 ns2 c :
  Rep s1 ns1 → Rep s2 ns2 → entries ns1 = entries ns2 →
  ∃ s1' ns1' s2' ns2',
    do_call s1 c = Some s1' ∧ do_call s2 c = Some s2' ∧
    Rep s1' ns1' ∧ Rep s2' ns2' ∧ entries ns1' = entries ns2'.
Proof.
  intros H1 H2 Heq.
  destruct (do_call_ok s1 ns1 c H1) as (s1' & ns1' & ? & HR1 & Hm1).
  destruct (do_call_ok s2 ns2 c H2) as (s2' & ns2' & ? & HR2 & Hm2).
  exists s1', ns1', s2', ns2'. do 4 (split; [done|]).
  apply ranking_unique; eauto using entries_sorted.
  intros x. by rewrite Hm1, Hm2, Heq.
Qed.

Lemma run_same cs : ∀ s1 ns1 s2 ns2,
  Rep s1 ns1 → Rep s2 ns2 → entries ns1 = entries ns2 →
  ∃ s1' s2', run cs s1 = Some s1' ∧ run cs s2 = Some s2' ∧ same_view s1' s2'.
Proof.
  induction cs as [|c cs IH]; intros s1 ns1 s2 ns2 H1 H2 Heq; simpl.
  { exists s1, s2. eauto using same_entries_same_view. }
  destruct (do_call_same s1 ns1 s2 ns2 c H1 H2 Heq)
    as (s1' & ns1' & s2' & ns2' & -> & -> & H1' & H2' & Heq').
  simpl. eauto.
Qed.




Lemma nxt_linked i (l : list tower) t :
  t ∈ l → linked i t = true → ∃ a, nxt i l = Some a.
Proof.
  intros Ht Hl. destruct (nxt i l) as [a|] eqn:Hn; [eauto|].
  apply nxt_None in Hn. rewrite Forall_forall in Hn.
  specialize (Hn t Ht). unfold unlinked in Hn. congruence.
Qed.

Lemma Qltb_lt x y : Qltb x y = true ↔ (x < y)%Q.
Proof.
  unfold Qltb. rewrite negb_true_iff, <-not_true_iff_false, Qle_bool_iff.
  split; [apply Qnot_le_lt|apply Qlt_not_le].
Qed.

Lemma successes_spec d b : ∀ p,
  (∀ j, j < successes d p b → (d (p + j)%nat < pFactor)%Q) ∧
  (successes d p b < b → ¬ (d (p + successes d p b)%nat < pFactor)%Q).
Proof.
  induction b as [|b IH]; intros p; simpl; [split; intros; lia|].
  destruct (Qltb (d p) pFactor) eqn:Hp.
  - destruct (IH (S p)) as [H1 H2]. split.
    + intros [|j] Hj; [rewrite Nat.add_0_r; by apply Qltb_lt|].
      replace (p + S j) with (S p + j) by lia. apply H1. lia.
    + intros Hlt. replace (p + S (successes d (S p) b))
        with (S p + successes d (S p) b) by lia. apply H2. lia.
  - split; [intros; lia|]. intros _. rewrite Nat.add_0_r, <-Qltb_lt. congruence.
Qed.
End reach.

(* ===================================================================== *)
(* The properties of the leaderboard                                     *)
(* ===================================================================== *)

(* The scenarios of section 8, run on the model. *)

Example scenario_top3 :
  (s ← run [CUpdate "a" 10; CUpdate "b" 20; CUpdate "c" 15] (NewSkipList coin);
   TopN s 3)
  = Some [mkEntry "b" 20; mkEntry "c" 15; mkEntry "a" 10].
Proof. vm_compute. reflexivity. Qed.

Example scenario_move_up :
  (s ← run [CUpdate "a" 10; CUpdate "b" 20; CUpdate "c" 15; CUpdate "a" 25]
           (NewSkipList coin);
   TopN s 1)
  = Some [mkEntry "a" 25].
Proof. vm_compute. reflexivity. Qed.

Example scenario_remove :
  (s ← run [CUpdate "a" 10; CUpdate "b" 20; CUpdate "c" 15; CUpdate "a" 25;
            CRemove "b"] (NewSkipList coin);
   l ← TopN s 2; g ← Get s "b"; Some (l, g))
  = Some ([mkEntry "a" 25; mkEntry "c" 15], (zeroEntry, false)).
Proof. vm_compute. reflexivity. Qed.

Example scenario_tie_break :
  (s ← run [CUpdate "b" 10; CUpdate "a" 10] (NewSkipList coin); TopN s 2)
  = Some [mkEntry "a" 10; mkEntry "b" 10].
Proof. vm_compute. reflexivity. Qed.

Example scenario_capacity :
  (s ← run demo (NewSkipList coin);
   a ← TopN s 11728124029610; Some (a, TopN s 11728124029611))
  = Some ([mkEntry "ann" 25; mkEntry "bob" 20; mkEntry "cid" 15], None).
Proof. vm_compute. reflexivity. Qed.

Example scenario_levels :
  (s ← run [CUpdate "b" 10; CUpdate "a" 10] (NewSkipList (λ _, (1 # 8)%Q));
   s' ← run [CRemove "a"; CRemove "b"] s; Some (lvl s, lvl s'))
  = Some (16, 1).
Proof. vm_compute. reflexivity. Qed.


(** C2. Round trip: on every reachable board, Update(u, sc) completes and
    Get(u) then returns (Entry{u, sc}, true). *)
Theorem Update_then_Get (s : SkipList) (u : string) (sc : Z) :
  reachable s →
  ∃ s', Update s u sc = Some s' ∧ Get s' u = Some (mkEntry u sc, true).
Proof.
  intros (ns & HR)%reachable_Rep.
  destruct (Update_ok s ns u sc HR) as (s' & ns' & HU & HR' & Hmem).
  exists s'. split; [done|]. rewrite (Get_spec s' ns' u HR').
  destruct (entry_of u (entries ns')) as [x|] eqn:Hx.
  - apply entry_of_Some in Hx as [Hin Hu]. apply Hmem in Hin as [->|[_ ?]]; done.
  - exfalso. apply (entry_of_None u _ (mkEntry u sc) Hx); [|done].
    apply Hmem. by left.
Qed.

Lemma Update_then_Get_witness :
  ∃ s, run demo (NewSkipList coin) = Some s ∧
  ∃ s', Update s "bob" 30 = Some s' ∧
        Get s' "bob" = Some (mkEntry "bob" 30, true).
Proof.
  eexists. split; [vm_compute; reflexivity|].
  apply Update_then_Get. exists coin, demo. vm_compute. reflexivity.
Defined.



(** C4. Idempotence: on every reachable board, Update(u, sc) completes, and
    a second Update(u, sc) right after it, whatever the generator then
    yields for the level of the new node, completes and leaves Get(v) for
    every user v and TopN(n) for every n as they were after the first. *)
Theorem Update_idempotent (s : SkipList) (u : string) (sc : Z) :
  reachable s →
  ∃ s1, Update s u sc = Some s1 ∧
        ∀ r, ∃ s2, Update (with_rng s1 r) u sc = Some s2 ∧ same_view s1 s2.
Proof.
  intros (ns & HR)%reachable_Rep.
  destruct (Update_ok s ns u sc HR) as (s1 & ns1 & HU & HR1 & Hmem1).
  exists s1. split; [done|]. intros r.
  destruct (Update_ok _ ns1 u sc (Rep_with_rng s1 ns1 r HR1))
    as (s2 & ns2 & HU2 & HR2 & Hmem2).
  exists s2. split; [done|].
  apply (same_entries_same_view s1 ns1 s2 ns2); [done..|].
  apply ranking_unique; eauto using entries_sorted.
  intros x. rewrite Hmem2, !Hmem1. split; [tauto|].
  intros [->|[? ?]]; tauto.
Qed.

Lemma Update_idempotent_witness :
  ∃ s, run demo (NewSkipList coin) = Some s ∧
  ∃ s1, Update s "cid" 40 = Some s1 ∧
        ∀ r, ∃ s2, Update (with_rng s1 r) "cid" 40 = Some s2 ∧ same_view s1 s2.
Proof.
  eexists. split; [vm_compute; reflexivity|].
  apply Update_idempotent. exists coin, demo. vm_compute. reflexivity.
Defined.

(** C5. TopN bounds: the claim asks that TopN(n) return all entries for
    every n above their number.  The code asks make for capacity n before
    it reads the board, so at n = 9223372036854775807, the largest int,
    TopN panics on every board, the empty one included. *)
Theorem TopN_largest_int_panics (s : SkipList) :
  TopN s 9223372036854775807 = None.
Proof. reflexivity. Qed.

(** C6. Remove of an absent user: when Get(u) reports found = false,
    Remove(u) completes without changing the board at all, so Get(v) for
    every user v and TopN(n) for every n are what they were. *)
Theorem Remove_absent_noop (s : SkipList) (u : string) :
  Get s u = Some (zeroEntry, false) →
  ∃ s', Remove s u = Some s' ∧ s' = s ∧ same_view s s'.
Proof.
  intros HG. exists s. unfold Get, Remove in *.
  destruct (byUser s !! u) as [a|].
  - by destruct (mem s !! a).
  - by repeat split.
Qed.

Lemma Remove_absent_noop_witness :
  ∃ s, run demo (NewSkipList coin) = Some s ∧
  ∃ s', Remove s "dan" = Some s' ∧ s' = s ∧ same_view s s'.
Proof.
  eexists. split; [vm_compute; reflexivity|].
  apply Remove_absent_noop. vm_compute. reflexivity.
Defined.

(** C7. Level choice: randomLevel returns 1 + k, where the first k values
    drawn are all below pFactor and either k = maxLevel - 1 or the next
    value drawn is not below pFactor; it draws one value per flip made
    and none once the ceiling is reached; hence 1 <= level <= 16. *)
Theorem randomLevel_geometric (r : Rand) :
  ∃ k, randomLevel r
         = Some (1 + k, mkRand (draws r) (pos r + Nat.min (1 + k) (maxLevel - 1))) ∧
       (∀ j, j < k → (draws r (pos r + j)%nat < pFactor)%Q) ∧
       (k < maxLevel - 1 → ¬ (draws r (pos r + k)%nat < pFactor)%Q) ∧
       1 ≤ 1 + k ≤ 16.
Proof.
  exists (successes (draws r) (pos r) (maxLevel - 1)).
  split; [apply randomLevel_spec|].
  destruct (successes_spec (draws r) (maxLevel - 1) (pos r)) as [H1 H2].
  split; [done|]. split; [done|]. apply (level_spec_bounds r).
Qed.

(** C8. Level bounds: after every Update or Remove on a reachable board,
    the board's level is between 1 and 16, every level of the head from
    the board's level upwards is empty, and either the level is 1 or the
    head's forward link at the topmost level points to a node. *)
Theorem lvl_after_call (s : SkipList) (c : call) :
  reachable s →
  ∃ s', do_call s c = Some s' ∧
        1 ≤ lvl s' ≤ 16 ∧
        (lvl s' = 1 ∨
         ∃ a, get_next (mem s') (head s') (lvl s' - 1) = Some (Some a)) ∧
        ∀ i, lvl s' ≤ i < maxLevel → get_next (mem s') (head s') i = Some None.
Proof.
  intros (ns & HR)%reachable_Rep.
  destruct (do_call_ok s ns c HR) as (s' & ns' & Hc & HR' & _).
  exists s'. split; [done|].
  pose proof (rep_lvl _ _ HR') as Hlv. split; [exact Hlv|].
  rewrite (rep_head _ _ HR'). split.
  - destruct (rep_top _ _ HR') as [?|(t & Ht & Hl)]; [by left|right].
    rewrite (head_next _ ns') by (apply (rep_link _ _ HR') || lia).
    destruct (nxt_linked _ _ _ Ht Hl) as [a ->]. eauto.
  - intros i Hi. rewrite (head_next _ ns') by (apply (rep_link _ _ HR') || lia).
    f_equal. apply nxt_unlinked.
    eapply Forall_impl; [exact (rep_settled _ _ HR')|]. intros t Ht.
    unfold unlinked. rewrite (settled_linked _ _ _ Ht). apply Nat.ltb_ge.
    destruct Ht as (_ & _ & ?). lia.
Qed.

Lemma lvl_after_call_witness :
  ∃ s, run demo (NewSkipList coin) = Some s ∧
  ∃ s', do_call s (CRemove "ann") = Some s' ∧
        1 ≤ lvl s' ≤ 16 ∧
        (lvl s' = 1 ∨
         ∃ a, get_next (mem s') (head s') (lvl s' - 1) = Some (Some a)) ∧
        ∀ i, lvl s' ≤ i < maxLevel → get_next (mem s') (head s') i = Some None.
Proof.
  eexists. split; [vm_compute; reflexivity|].
  apply lvl_after_call. exists coin, demo. vm_compute. reflexivity.
Defined.

(** C9. Independence of the random stream: two fresh boards seeded
    differently and given the same sequence of Update/Remove calls both
    complete it and agree on TopN(n) for every n and on Get(u) for every
    user u. *)
Theorem rng_independent (seed1 seed2 : nat → Q) (cs : list call) :
  ∃ s1 s2, run cs (NewSkipList seed1) = Some s1 ∧
           run cs (NewSkipList seed2) = Some s2 ∧
           same_view s1 s2.
Proof.
  apply (run_same cs _ [] _ []); auto using Rep_new.
Qed.

(* ===================================================================== *)
(* Further properties of the board                                       *)
(* ===================================================================== *)

#[local] Set Warnings "-clear-no-such-hyp".

Section further.
Implicit Types (s : SkipList) (ns : list tower) (c : call) (u : string).

Lemma same_members_same_view s1 ns1 s2 ns2 :
  Rep s1 ns1 → Rep s2 ns2 →
  (∀ x, x ∈ entries ns1 ↔ x ∈ entries ns2) → same_view s1 s2.
Proof.
  intros H1 H2 Hmem. apply (same_entries_same_view s1 ns1 s2 ns2); [done..|].
  apply ranking_unique; eauto using entries_sorted.
Qed.

(* two calls in a row *)
Lemma run2_ok s ns c1 c2 :
  Rep s ns →
  ∃ s' ns1 ns', run [c1; c2] s = Some s' ∧ Rep s' ns' ∧
    (∀ x, x ∈ entries ns1 ↔ after_call c1 (entries ns) x) ∧
    (∀ x, x ∈ entries ns' ↔ after_call c2 (entries ns1) x).
Proof.
  intros HR.
  destruct (do_call_ok s ns c1 HR) as (s1 & ns1 & H1 & HR1 & Hm1).
  destruct (do_call_ok s1 ns1 c2 HR1) as (s2 & ns2 & H2 & HR2 & Hm2).
  exists s2, ns1, ns2. simpl. rewrite H1. simpl. rewrite H2. by simpl.
Qed.

Lemma run1_ok s ns c :
  Rep s ns →
  ∃ s' ns', run [c] s = Some s' ∧ Rep s' ns' ∧
    ∀ x, x ∈ entries ns' ↔ after_call c (entries ns) x.
Proof.
  intros HR. destruct (do_call_ok s ns c HR) as (s1 & ns1 & H1 & HR1 & Hm1).
  exists s1, ns1. simpl. rewrite H1. by simpl.
Qed.
Lemma Get_members s1 ns1 s2 ns2 v :
  Rep s1 ns1 → Rep s2 ns2 →
  (∀ x, User x = v → (x ∈ entries ns1 ↔ x ∈ entries ns2)) →
  Get s1 v = Get s2 v.
Proof.
  intros H1 H2 Hmem. rewrite (Get_spec _ _ _ H1), (Get_spec _ _ _ H2). do 2 f_equal.
  destruct (entry_of v (entries ns1)) as [x|] eqn:Hx,
           (entry_of v (entries ns2)) as [y|] eqn:Hy; [| | |done].
  - apply entry_of_Some in Hx as [Hx Hxu]. apply entry_of_Some in Hy as [Hy Hyu].
    f_equal. apply (entries_users s2 ns2 x y H2); [by apply Hmem|done|congruence].
  - apply entry_of_Some in Hx as [Hx Hxu].
    destruct (entry_of_None _ _ x Hy); [by apply Hmem|done].
  - apply entry_of_Some in Hy as [Hy Hyu].
    destruct (entry_of_None _ _ y Hx); [by apply Hmem|done].
Qed.


End further.

(** X1. less is a strict total order on entries: no entry ranks before
    itself, ranking before is transitive and never holds both ways, and of
    two different entries one ranks before the other. *)
Theorem less_strict_total_order :
  (∀ a, less a a = false) ∧
  (∀ a b c, less a b = true → less b c = true → less a c = true) ∧
  (∀ a b, less a b = true → less b a = false) ∧
  (∀ a b, a ≠ b → less a b = true ∨ less b a = true).
Proof.
  split; [apply less_irrefl|]. split; [apply less_trans|].
  split; [apply less_asym|]. intros a b Hne.
  destruct (less_total a b) as [?|[?|?]]; [auto|done|auto].
Qed.

(** X2. Frame: on a reachable board, an Update or Remove about one user
    completes and leaves what Get returns for every other user unchanged. *)
Theorem call_leaves_others (s : SkipList) (c : call) (v : string) :
  reachable s → call_user c ≠ v →
  ∃ s', do_call s c = Some s' ∧ Get s' v = Get s v.
Proof.
  intros (ns & HR)%reachable_Rep Hv.
  destruct (do_call_ok s ns c HR) as (s' & ns' & Hc & HR' & Hmem).
  exists s'. split; [done|]. apply (Get_members s' ns' s ns v HR' HR).
  intros x Hx. rewrite Hmem. destruct c as [u sc|u]; simpl in *.
  - split.
    + intros [->|[? _]]; [simpl in Hx; congruence|done].
    + intros ?. right. split; [done|congruence].
  - split; [tauto|]. intros ?. split; [done|congruence].
Qed.

Lemma call_leaves_others_witness :
  ∃ s, run demo (NewSkipList coin) = Some s ∧
  ∃ s', do_call s (CUpdate "bob" 5) = Some s' ∧ Get s' "ann" = Get s "ann".
Proof.
  eexists. split; [vm_compute; reflexivity|].
  apply call_leaves_others; [|done]. exists coin, demo. vm_compute. reflexivity.
Defined.



Section rankings.
Implicit Types (l : list Entry) (en x : Entry) (u : string).




End rankings.





(** X6. Calls about different users commute: on a reachable board, two
    calls (Update or Remove) about different users, made in either order,
    both complete and leave boards with the same TopN and Get results. *)
Theorem calls_commute (s : SkipList) (c1 c2 : call) :
  reachable s → call_user c1 ≠ call_user c2 →
  ∃ a b, run [c1; c2] s = Some a ∧ run [c2; c1] s = Some b ∧ same_view a b.
Proof.
  intros (ns & HR)%reachable_Rep Hne.
  destruct (run2_ok s ns c1 c2 HR) as (a & na1 & na & Ha & HRa & Ha1 & Ha2).
  destruct (run2_ok s ns c2 c1 HR) as (b & nb1 & nb & Hb & HRb & Hb1 & Hb2).
  exists a, b. split; [done|]. split; [done|].
  apply (same_members_same_view a na b nb HRa HRb).
  intros x. rewrite Ha2, Hb2.
  destruct c1 as [u1 sc1|u1], c2 as [u2 sc2|u2]; simpl in *;
    rewrite Ha1, Hb1; simpl; naive_solver.
Qed.

Lemma calls_commute_witness :
  ∃ s, run demo (NewSkipList coin) = Some s ∧
  ∃ a b, run [CUpdate "bob" 5; CRemove "ann"] s = Some a ∧
         run [CRemove "ann"; CUpdate "bob" 5] s = Some b ∧ same_view a b.
Proof.
  eexists. split; [vm_compute; reflexivity|].
  apply calls_commute; [|done]. exists coin, demo. vm_compute. reflexivity.
Defined.

(** X7. The later call wins: on a reachable board, two calls in a row
    about the same user leave the board with the same TopN and Get results
    as the second call alone. *)
Theorem later_call_wins (s : SkipList) (c1 c2 : call) :
  reachable s → call_user c1 = call_user c2 →
  ∃ a b, run [c1; c2] s = Some a ∧ run [c2] s = Some b ∧ same_view a b.
Proof.
  intros (ns & HR)%reachable_Rep Heq.
  destruct (run2_ok s ns c1 c2 HR) as (a & na1 & na & Ha & HRa & Ha1 & Ha2).
  destruct (run1_ok s ns c2 HR) as (b & nb & Hb & HRb & Hb1).
  exists a, b. split; [done|]. split; [done|].
  apply (same_members_same_view a na b nb HRa HRb).
  intros x. rewrite Ha2, Hb1.
  destruct c1 as [u1 sc1|u1], c2 as [u2 sc2|u2]; simpl in *; subst;
    rewrite Ha1; simpl; naive_solver.
Qed.

Lemma later_call_wins_witness :
  ∃ s, run demo (NewSkipList coin) = Some s ∧
  ∃ a b, run [CUpdate "bob" 5; CUpdate "bob" 50] s = Some a ∧
         run [CUpdate "bob" 50] s = Some b ∧ same_view a b.
Proof.
  eexists. split; [vm_compute; reflexivity|].
  apply later_call_wins; [|done]. exists coin, demo. vm_compute. reflexivity.
Defined.

(** X8. Insert then delete: on a reachable board on which Get(u) reports
    not found, Update(u, sc) followed by Remove(u) completes and gives back
    a board with the TopN and Get results of the original one. *)
Theorem Update_Remove_round_trip (s : SkipList) (u : string) (sc : Z) :
  reachable s → Get s u = Some (zeroEntry, false) →
  ∃ s', run [CUpdate u sc; CRemove u] s = Some s' ∧ same_view s s'.
Proof.
  intros (ns & HR)%reachable_Rep HG.
  assert (∀ x, x ∈ entries ns → User x ≠ u) as Hfresh.
  { rewrite (Get_spec s ns u HR) in HG.
    destruct (entry_of u (entries ns)) as [y|] eqn:Hy; [done|].
    intros x. by apply entry_of_None. }
  destruct (run2_ok s ns (CUpdate u sc) (CRemove u) HR)
    as (s' & ns1 & ns' & Hrun & HR' & H1 & H2).
  exists s'. split; [done|].
  apply (same_members_same_view s ns s' ns' HR HR').
  intros x. rewrite H2. simpl. rewrite H1. simpl. naive_solver.
Qed.

Lemma Update_Remove_round_trip_witness :
  ∃ s, run demo (NewSkipList coin) = Some s ∧
  ∃ s', run [CUpdate "dan" 7; CRemove "dan"] s = Some s' ∧ same_view s s'.
Proof.
  eexists. split; [vm_compute; reflexivity|].
  apply Update_Remove_round_trip; [|vm_compute; reflexivity].
  exists coin, demo. vm_compute. reflexivity.
Defined.

Section batches.
Implicit Types (s : SkipList) (ns : list tower) (ups : list (string * Z)).

(* a batch of Update calls, one per pair *)
Lemma run_updates_ok ups : ∀ s ns,
  Rep s ns → NoDup ups.*1 →
  ∃ s' ns', run ((λ p, CUpdate p.1 p.2) <$> ups) s = Some s' ∧ Rep s' ns' ∧
    ∀ x, x ∈ entries ns' ↔
         (x ∈ entries ns ∧ User x ∉ ups.*1) ∨ x ∈ (λ p, mkEntry p.1 p.2) <$> ups.
Proof.
  induction ups as [|[u sc] ups IH]; intros s ns HR Hnd.
  { exists s, ns. split; [done|]. split; [done|]. intros x. simpl. split.
    - intros ?. left. split; [done|]. by intros ?%elem_of_nil.
    - by intros [[? _]|?%elem_of_nil]. }
  rewrite fmap_cons in Hnd. apply NoDup_cons in Hnd as [Hu Hnd]. simpl in Hu.
  destruct (Update_ok s ns u sc HR) as (s1 & ns1 & HU & HR1 & Hm1).
  destruct (IH s1 ns1 HR1 Hnd) as (s' & ns' & Hrun & HR' & Hm').
  exists s', ns'. split; [|split; [done|]].
  { rewrite fmap_cons. cbn [run do_call fst snd]. rewrite HU. done. }
  intros x. rewrite Hm', Hm1, !fmap_cons, !elem_of_cons. cbn [fst snd]. split.
  - intros [[[->|[? ?]] ?]|?]; [by right; left| |by right; right].
    left. split; [done|]. intros [?|?]; [congruence|done].
  - intros [[? Hx]|[->|?]]; [| |by right].
    + left. split; [|tauto]. right. split; [done|]. tauto.
    + left. split; [by left|done].
Qed.
End batches.

(** X9. Size conservation: Update calls for pairwise different users on a
    fresh board all complete, and TopN(N), N the number of calls and a
    capacity make accepts, then returns exactly N entries: the entries of
    the calls, in some order. *)
Theorem distinct_updates_all_ranked (seed : nat → Q) (ups : list (string * Z)) :
  NoDup ups.*1 → (Z.of_nat (length ups) ≤ maxCap)%Z →
  ∃ s l, run ((λ p, CUpdate p.1 p.2) <$> ups) (NewSkipList seed) = Some s ∧
         TopN s (Z.of_nat (length ups)) = Some l ∧
         length l = length ups ∧
         l ≡ₚ (λ p, mkEntry p.1 p.2) <$> ups.
Proof.
  intros Hnd Hcap.
  destruct (run_updates_ok ups _ [] (Rep_new seed) Hnd) as (s & ns & Hrun & HR & Hm).
  assert (entries ns ≡ₚ (λ p, mkEntry p.1 p.2) <$> ups) as Hperm.
  { apply NoDup_Permutation.
    - apply sorted_NoDup. by apply (entries_sorted s).
    - apply (NoDup_fmap_1 User). by rewrite <-list_fmap_compose.
    - intros x. rewrite Hm. split; [|auto]. by intros [[?%elem_of_nil _]|?]. }
  pose proof (Permutation_length Hperm) as Hlen. rewrite length_fmap in Hlen.
  exists s, (entries ns). split; [done|]. split; [|done].
  rewrite (TopN_ok s ns _ HR Hcap), take_ge; [done|lia].
Qed.

Lemma distinct_updates_all_ranked_witness :
  ∃ s l, run ((λ p, CUpdate p.1 p.2) <$> [("ann", 3%Z); ("bob", 9%Z); ("cid", 3%Z)])
             (NewSkipList coin) = Some s ∧
         TopN s (Z.of_nat (length [("ann", 3%Z); ("bob", 9%Z); ("cid", 3%Z)])) = Some l ∧
         length l = length [("ann", 3%Z); ("bob", 9%Z); ("cid", 3%Z)] ∧
         l ≡ₚ (λ p, mkEntry p.1 p.2) <$> [("ann", 3%Z); ("bob", 9%Z); ("cid", 3%Z)].
Proof.
  apply (distinct_updates_all_ranked coin [("ann", 3%Z); ("bob", 9%Z); ("cid", 3%Z)]).
  - apply (bool_decide_unpack _). vm_compute. reflexivity.
  - vm_compute. discriminate.
Defined.

Section chains.
Implicit Types (s : SkipList) (m : list node) (ns rest : list tower) (i : nat).

Lemma follow_ok m i rest : ∀ fuel,
  Forall (node_at m) rest → lev_ok m i rest → length rest < fuel →
  follow fuel m i (nxt i rest) = Some (on_level i rest).
Proof.
  induction rest as [|t rest IH]; intros fuel Hn Hl Hf.
  - destruct fuel; [simpl in Hf; lia|done].
  - apply Forall_cons in Hn as [_ Hn]. destruct Hl as [Hg Hl]. simpl in Hf.
    cbn [nxt on_level]. destruct (linked i t) eqn:Ht.
    + destruct fuel as [|f]; [lia|]. cbn [follow]. rewrite (Hg eq_refl).
      cbn [mbind option_bind]. rewrite IH by (done || lia). done.
    + apply IH; [done..|lia].
Qed.

Lemma level_chain_spec s ns i :
  Rep s ns → i < maxLevel → level_chain s i = Some (on_level i ns).
Proof.
  intros HR Hi. unfold level_chain. pose proof (rep_link _ _ HR) as Hlk.
  rewrite (rep_head _ _ HR), (head_next _ ns) by done. cbn [mbind option_bind].
  pose proof (linkage_length _ _ Hlk) as Hlen. simpl in Hlen.
  destruct Hlk as [Hn Hl _]. apply Forall_cons in Hn as [_ Hn].
  apply follow_ok; [done|apply (Hl i)|lia].
Qed.

Lemma on_level_elem i ns a :
  a ∈ on_level i ns ↔ ∃ t, t ∈ ns ∧ t_addr t = a ∧ linked i t = true.
Proof.
  induction ns as [|t ns IH]; simpl.
  - split; [by intros ?%elem_of_nil|by intros (? & ?%elem_of_nil & _)].
  - destruct (linked i t) eqn:Ht; rewrite ?elem_of_cons, IH; split.
    + intros [->|(t' & ? & ? & ?)]; [exists t|exists t']; rewrite elem_of_cons; auto.
    + intros (t' & [->|?]%elem_of_cons & ? & ?); [by left|right; eauto].
    + intros (t' & ? & ? & ?). exists t'. rewrite elem_of_cons. auto.
    + intros (t' & [->|?]%elem_of_cons & ? & ?); [congruence|eauto].
Qed.

Lemma on_level_sublist lv i ns :
  Forall (settled lv) ns → on_level (S i) ns `sublist_of` on_level i ns.
Proof.
  induction 1 as [|t ns Ht _ IH]; simpl; [constructor|].
  rewrite !(settled_linked _ _ _ Ht).
  destruct (Nat.ltb_spec (S i) (t_hi t)), (Nat.ltb_spec i (t_hi t)); try lia.
  - by apply sublist_skip.
  - by apply sublist_cons.
  - done.
Qed.

Lemma on_level_NoDup i ns : NoDup (t_addr <$> ns) → NoDup (on_level i ns).
Proof.
  induction ns as [|t ns IH]; simpl; [constructor|].
  rewrite NoDup_cons. intros [Ht Hnd]. destruct (linked i t); [|auto].
  apply NoDup_cons. split; [|auto].
  intros (t' & Ht' & Ha & _)%on_level_elem. apply Ht. rewrite <-Ha.
  by apply list_elem_of_fmap_2.
Qed.

Lemma on_level_0 lv ns : Forall (settled lv) ns → on_level 0 ns = t_addr <$> ns.
Proof.
  induction 1 as [|t ns Ht _ IH]; simpl; [done|].
  rewrite (settled_linked _ _ _ Ht), IH.
  destruct Ht as (_ & ? & _). by destruct (Nat.ltb_spec 0 (t_hi t)); [|lia].
Qed.
End chains.

(** X10. Towers: on a reachable board, following the forward links of any
    level from the head ends, meets no node twice, and the nodes met at
    level i + 1 are met at level i as well, in the same order. *)
Theorem levels_nested (s : SkipList) (i : nat) :
  reachable s → S i < maxLevel →
  ∃ lower upper,
    level_chain s i = Some lower ∧ level_chain s (S i) = Some upper ∧
    NoDup lower ∧ NoDup upper ∧ upper `sublist_of` lower.
Proof.
  intros (ns & HR)%reachable_Rep Hi.
  exists (on_level i ns), (on_level (S i) ns).
  destruct (rep_link _ _ HR) as [_ _ Hd]. apply NoDup_cons in Hd as [_ Hd].
  split; [apply level_chain_spec; (done || lia)|].
  split; [by apply level_chain_spec|].
  split; [by apply on_level_NoDup|]. split; [by apply on_level_NoDup|].
  apply (on_level_sublist (lvl s)), (rep_settled _ _ HR).
Qed.

Lemma levels_nested_witness :
  ∃ s, run demo (NewSkipList coin) = Some s ∧
  ∃ lower upper,
    level_chain s 0 = Some lower ∧ level_chain s 1 = Some upper ∧
    NoDup lower ∧ NoDup upper ∧ upper `sublist_of` lower.
Proof.
  eexists. split; [vm_compute; reflexivity|].
  apply levels_nested; [|unfold maxLevel; lia].
  exists coin, demo. vm_compute. reflexivity.
Defined.

(** X11. Index and chain: on a reachable board, the nodes on the level-0
    chain are exactly the nodes byUser points to, and the node byUser
    holds for a user carries an entry of that user. *)
Theorem index_matches_chain (s : SkipList) :
  reachable s →
  ∃ chain,
    level_chain s 0 = Some chain ∧
    (∀ a, a ∈ chain ↔ ∃ u, byUser s !! u = Some a) ∧
    (∀ u a, byUser s !! u = Some a →
            ∃ nd, mem s !! a = Some nd ∧ User (e nd) = u).
Proof.
  intros (ns & HR)%reachable_Rep. exists (t_addr <$> ns).
  split; [|split].
  - rewrite (level_chain_spec s ns 0 HR) by (unfold maxLevel; lia).
    by rewrite (on_level_0 (lvl s)) by apply (rep_settled _ _ HR).
  - intros a. rewrite list_elem_of_fmap. split.
    + intros (t & -> & Ht). exists (User (t_e t)). apply (rep_index _ _ HR). eauto.
    + intros (u & (t & ? & ? & _)%(rep_index _ _ HR)). eauto.
  - intros u a (t & Ht & <- & <-)%(rep_index _ _ HR).
    destruct (Rep_node s ns t HR Ht) as (nd & ? & He). exists nd. by rewrite He.
Qed.

Lemma index_matches_chain_witness :
  ∃ s, run demo (NewSkipList coin) = Some s ∧
  ∃ chain,
    level_chain s 0 = Some chain ∧
    (∀ a, a ∈ chain ↔ ∃ u, byUser s !! u = Some a) ∧
    (∀ u a, byUser s !! u = Some a →
            ∃ nd, mem s !! a = Some nd ∧ User (e nd) = u).
Proof.
  eexists. split; [vm_compute; reflexivity|].
  apply index_matches_chain. exists coin, demo. vm_compute. reflexivity.
Defined.

Section generator.
Implicit Types (s : SkipList) (u : string) (en : Entry).

Lemma removeLocked_rng s u en s' : removeLocked s u en = Some s' → rng s' = rng s.
Proof.
  unfold removeLocked.
  destruct (search _ _ _ _ _) as [update|]; simpl; [|done].
  destruct (update !! 0) as [[p0|]|]; simpl; try done.
  destruct (get_next (mem s) p0 0) as [[t|]|]; simpl; try done;
    [|by intros [= <-]].
  destruct (mem s !! t) as [tn|]; simpl; [|done].
  case_decide; [|by intros [= <-]].
  destruct (for_each _ _ _) as [m'|]; simpl; [|done].
  destruct (shrink _ _ _); simpl; [|done]. by intros [= <-].
Qed.

Lemma Remove_rng s u s' : Remove s u = Some s' → rng s' = rng s.
Proof.
  unfold Remove. destruct (byUser s !! u); [|by intros [= ->]].
  destruct (mem s !! _); simpl; [|done]. apply removeLocked_rng.
Qed.

Lemma Update_insert_rng s u sc s' :
  Update_insert s u sc = Some s' →
  rng s' = mkRand (draws (rng s)) (pos (rng s) + flips (rng s)).
Proof.
  unfold Update_insert. rewrite randomLevel_spec.
  destruct (search _ _ _ _ _) as [update|]; cbn [mbind option_bind]; [|done].
  destruct (lvl s <? level_spec (rng s)).
  - destruct (for_each _ _ update) as [update'|]; cbn [mbind option_bind]; [|done].
    destruct (for_each (splice_step _ _) _ _) as [m'|];
      cbn [mbind option_bind]; [|done].
    by intros [= <-].
  - cbn [mbind option_bind].
    destruct (for_each (splice_step _ _) _ _) as [m'|];
      cbn [mbind option_bind]; [|done].
    by intros [= <-].
Qed.

Lemma flips_bounds (r : Rand) : 1 ≤ flips r ≤ maxLevel - 1.
Proof.
  unfold flips. pose proof (level_spec_bounds r). unfold maxLevel in *. lia.
Qed.
End generator.

(** X12. Use of the generator: on a reachable board, Remove completes and
    leaves the generator as it was; Update completes, keeps the stream and
    advances it by at least 1 and at most maxLevel - 1 draws. *)
Theorem generator_use (s : SkipList) (c : call) :
  reachable s →
  ∃ s', do_call s c = Some s' ∧
        draws (rng s') = draws (rng s) ∧
        match c with
        | CRemove _ => pos (rng s') = pos (rng s)
        | CUpdate _ _ =>
            pos (rng s) < pos (rng s') ≤ pos (rng s) + (maxLevel - 1)
        end.
Proof.
  intros (ns & HR)%reachable_Rep.
  destruct (do_call_ok s ns c HR) as (s' & ns' & Hc & _).
  exists s'. split; [done|]. destruct c as [u sc|u]; simpl in Hc.
  - rewrite Update_Remove in Hc.
    destruct (Remove s u) as [s1|] eqn:H1; simpl in Hc; [|done].
    apply Remove_rng in H1. apply Update_insert_rng in Hc.
    rewrite Hc, H1. cbn [draws pos]. pose proof (flips_bounds (rng s)).
    split; [done|lia].
  - apply Remove_rng in Hc. by rewrite Hc.
Qed.

Lemma generator_use_witness :
  ∃ s, run demo (NewSkipList coin) = Some s ∧
  ∃ s', do_call s (CUpdate "dan" 1) = Some s' ∧
        draws (rng s') = draws (rng s) ∧
        pos (rng s) < pos (rng s') ≤ pos (rng s) + (maxLevel - 1).
Proof.
  eexists. split; [vm_compute; reflexivity|].
  apply (generator_use _ (CUpdate "dan" 1)).
  exists coin, demo. vm_compute. reflexivity.
Defined.

(** X13. The leader: on a reachable board, when TopN(1) returns the single
    entry x, no entry that Get finds has a higher score than x. *)
Theorem top_has_highest_score (s : SkipList) (x : Entry) :
  reachable s → TopN s 1 = Some [x] →
  ∀ v y, Get s v = Some (y, true) → (Score y ≤ Score x)%Z.
Proof.
  intros (ns & HR)%reachable_Rep HT v y HG.
  apply (TopN_Some s ns 1 _ HR) in HT. rewrite (Get_spec s ns v HR) in HG.
  destruct (entry_of v (entries ns)) as [y'|] eqn:Hy; [|done].
  injection HG as ->. apply entry_of_Some in Hy as [Hy _].
  pose proof (entries_sorted s ns HR) as Hs.
  destruct (entries ns) as [|x' rest]; [done|]. simpl in HT. rewrite take_0 in HT.
  injection HT as <-. apply StronglySorted_cons in Hs as [Hx _].
  apply elem_of_cons in Hy as [->|Hy]; [lia|].
  rewrite Forall_forall in Hx. destruct (Hx y Hy) as [?|[? _]]; lia.
Qed.

Lemma top_has_highest_score_witness :
  ∃ s, run demo (NewSkipList coin) = Some s ∧
  ∀ v y, Get s v = Some (y, true) → (Score y ≤ Score (mkEntry "ann" 25))%Z.
Proof.
  eexists. split; [vm_compute; reflexivity|].
  apply top_has_highest_score; [|vm_compute; reflexivity].
  exists coin, demo. vm_compute. reflexivity.
Defined.

(** X14. The guard of removeLocked: on a reachable board on which Get(u)
    reports not found, removeLocked(u, e) returns, for any entry e, without
    changing the board: the node its search stops at is nil or belongs to
    another user. *)
Theorem removeLocked_absent (s : SkipList) (u : string) (en : Entry) :
  reachable s → Get s u = Some (zeroEntry, false) →
  removeLocked s u en = Some s.
Proof.
  intros (ns & HR)%reachable_Rep HG.
  assert (byUser s !! u = None) as Hnone.
  { unfold Get in HG. destruct (byUser s !! u) as [a|]; [|done].
    by destruct (mem s !! a). }
  destruct (sorted_split en ns (rep_sorted _ _ HR)) as (pre & post & -> & Hpre & Hpost).
  destruct (Rep_search s pre post en HR Hpre Hpost) as (update & Hsearch & _ & Hupd).
  pose proof (rep_lvl _ _ HR) as Hlv.
  unfold removeLocked. rewrite Hsearch. cbn [mbind option_bind].
  rewrite (Hupd 0) by lia. cbn [mbind option_bind].
  destruct (head_split 0 pre) as (l1 & u0 & l2 & Heq & Hu & Hul & Hl2);
    [unfold maxLevel; lia|].
  assert (get_next (mem s) (last_linked 0 0 pre) 0 = Some (nxt 0 post)) as ->.
  { destruct (rep_link _ _ HR) as [_ Hl _]. specialize (Hl 0).
    change (headT :: pre ++ post) with ((headT :: pre) ++ post) in Hl.
    rewrite Heq, <-app_assoc in Hl. apply lev_ok_app_r in Hl. destruct Hl as [Hl _].
    rewrite <-Hu, (Hl Hul). by rewrite nxt_unlinked_app. }
  cbn [mbind option_bind]. destruct (nxt 0 post) as [b|] eqn:Hb; [|done].
  apply nxt_Some in Hb as (t & Ht & <- & _).
  assert (t ∈ pre ++ post) as Ht' by (revert Ht; elem).
  destruct (Rep_node s _ t HR Ht') as (nd & -> & He). cbn [mbind option_bind].
  rewrite decide_False; [done|]. rewrite He.
  by apply (Rep_absent s (pre ++ post) u HR Hnone).
Qed.

Lemma removeLocked_absent_witness :
  ∃ s, run demo (NewSkipList coin) = Some s ∧
       removeLocked s "dan" (mkEntry "dan" 17) = Some s.
Proof.
  eexists. split; [vm_compute; reflexivity|].
  apply removeLocked_absent; [|vm_compute; reflexivity].
  exists coin, demo. vm_compute. reflexivity.
Defined.

Section histories.
Implicit Types (s : SkipList) (ns : list tower) (c : call) (u v : string).

Lemma dom_users s ns v :
  Rep s ns → v ∈ dom (byUser s) ↔ ∃ x, x ∈ entries ns ∧ User x = v.
Proof.
  intros HR. rewrite elem_of_dom. unfold is_Some. split.
  - intros (a & (t & Ht & _ & Hu)%(rep_index _ _ HR)).
    exists (t_e t). split; [by apply list_elem_of_fmap_2|done].
  - intros (x & (t & -> & Ht)%list_elem_of_fmap_1 & Hu).
    exists (t_addr t). apply (rep_index _ _ HR). eauto.
Qed.

Lemma Get_found_iff s ns u o :
  Rep s ns →
  Get s u = Some (found o) ↔ ∀ x, o = Some x ↔ (x ∈ entries ns ∧ User x = u).
Proof.
  intros HR. rewrite (Get_spec s ns u HR). split.
  - intros Heq x. assert (entry_of u (entries ns) = o) as <-.
    { destruct (entry_of u (entries ns)), o; simpl in Heq; congruence. }
    split; [apply entry_of_Some|]. intros [Hx Hu].
    destruct (entry_of u (entries ns)) as [y|] eqn:Hy.
    + apply entry_of_Some in Hy as [Hy Hyu]. f_equal.
      apply (entries_users s ns y x HR Hy Hx). congruence.
    + by destruct (entry_of_None _ _ x Hy Hx).
  - intros Ho. do 2 f_equal. destruct (entry_of u (entries ns)) as [y|] eqn:Hy.
    + apply entry_of_Some in Hy. symmetry. by apply Ho.
    + destruct o as [x|]; [|done]. destruct (proj1 (Ho x) eq_refl) as [Hx Hu].
      by destruct (entry_of_None _ _ x Hy Hx).
Qed.

Lemma run_last_write cs : ∀ s ns u acc,
  Rep s ns → Get s u = Some (found acc) →
  ∃ s', run cs s = Some s' ∧ Get s' u = Some (found (last_write u cs acc)).
Proof.
  induction cs as [|c cs IH]; intros s ns u acc HR HG; [by exists s|].
  destruct (do_call_ok s ns c HR) as (s1 & ns1 & Hc & HR1 & Hm).
  cbn [run]. rewrite Hc. cbn [mbind option_bind].
  rewrite (Get_found_iff s ns u acc HR) in HG.
  destruct c as [v sc|v]; cbn [last_write]; apply (IH s1 ns1 _ _ HR1);
    apply (Get_found_iff s1 ns1 u _ HR1); intros x; rewrite Hm;
    cbn [after_call]; destruct (decide (v = u)) as [->|Hne]; rewrite ?HG.
  - split.
    + intros [= <-]. split; [by left|done].
    + intros [[->|[_ ?]] ?]; done.
  - split.
    + intros [? ?]. split; [|done]. right. split; [done|congruence].
    + intros [[->|[? _]] Hu]; [simpl in Hu; congruence|done].
  - split; [done|]. by intros [[_ ?] ?].
  - split.
    + intros [? ?]. split; [|done]. split; [done|congruence].
    + by intros [[? _] ?].
Qed.
End histories.

(** X15. Users on the board: on a reachable board, Update(u, _) completes
    and makes the users indexed by byUser those indexed before together
    with u; Remove(u) completes and makes them those indexed before other
    than u. *)
Theorem users_after_call (s : SkipList) (c : call) :
  reachable s →
  ∃ s', do_call s c = Some s' ∧
        dom (byUser s') =
          match c with
          | CUpdate u _ => {[u]} ∪ dom (byUser s)
          | CRemove u => dom (byUser s) ∖ {[u]}
          end.
Proof.
  intros (ns & HR)%reachable_Rep.
  destruct (do_call_ok s ns c HR) as (s' & ns' & Hc & HR' & Hm).
  exists s'. split; [done|]. apply set_eq. intros v.
  rewrite (dom_users s' ns' v HR').
  destruct c as [u sc|u]; simpl in Hm.
  - rewrite elem_of_union, elem_of_singleton, (dom_users s ns v HR). split.
    + intros (x & [->|[? ?]]%Hm & Hu); [by left|right; eauto].
    + intros [->|(x & Hx & Hu)].
      * exists (mkEntry u sc). split; [apply Hm; by left|done].
      * destruct (decide (v = u)) as [->|Hne].
        -- exists (mkEntry u sc). split; [apply Hm; by left|done].
        -- exists x. split; [|done]. apply Hm. right. split; [done|congruence].
  - rewrite elem_of_difference, elem_of_singleton, (dom_users s ns v HR). split.
    + intros (x & [? ?]%Hm & Hu). split; [eauto|congruence].
    + intros [(x & Hx & Hu) Hne]. exists x. split; [|done].
      apply Hm. split; [done|congruence].
Qed.

Lemma users_after_call_witness :
  ∃ s, run demo (NewSkipList coin) = Some s ∧
  ∃ s', do_call s (CRemove "bob") = Some s' ∧
        dom (byUser s') = dom (byUser s) ∖ {["bob"]}.
Proof.
  eexists. split; [vm_compute; reflexivity|].
  apply (users_after_call _ (CRemove "bob")).
  exists coin, demo. vm_compute. reflexivity.
Defined.

(** X16. Last write wins over a whole history: after any sequence of
    calls on a fresh board, Get(u) returns the entry of the last Update(u, _)
    with found = true, unless there is none or a Remove(u) came after it,
    in which case it returns the zero Entry with found = false. *)
Theorem Get_after_run (seed : nat → Q) (cs : list call) (u : string) :
  ∃ s, run cs (NewSkipList seed) = Some s ∧
       Get s u = Some (found (last_write u cs None)).
Proof.
  apply (run_last_write cs _ [] u None (Rep_new seed)). reflexivity.
Qed.


